(** * A shallow embedding of the C++ teaching lexer

    Source files embedded here:
    - [compiler_project/simple_lexer.py] : [Token], the pattern table of
      [SimpleRegexLexer.__init__], [tokenize], [find_problems] and
      [combine_function_calls];
    - [compiler_project/run_lexer.py] : [Problem],
      [ProblemTracker.add_problem], [format_token_type] and
      [format_token_value];
    - [compiler_project/stl_library.py] : [STLLibrary.sort],
      [STLLibrary.reverse] and [STLLibrary.find].

    Source text is a [string]; a character is a code point in 0..255 (the
    Latin-1 range of a Python [str]), and the character classes [\s], [\d],
    [\w] are those of Python's [re] for [str] patterns on that range.
    Offsets, lines and columns are Python [int]s that never go negative
    here; they are [nat] (see [line_start_le] for the one subtraction). *)

From Stdlib Require Import String Ascii List Arith Bool Lia Sorted.
From Stdlib Require Import ZArith Permutation.
From Equations Require Import Equations.
Import ListNotations.
Open Scope string_scope.
Open Scope nat_scope.
Open Scope list_scope.

(** ** Characters and character classes *)

Definition ord (c : ascii) : nat := nat_of_ascii c.

Definition between (lo hi : nat) (c : ascii) : bool :=
  (lo <=? ord c) && (ord c <=? hi).

Definition is_char (a c : ascii) : bool := Ascii.eqb a c.

Definition newline : ascii := ascii_of_nat 10.

(** [\d] : decimal digits. *)
Definition is_digit (c : ascii) : bool := between 48 57 c.

(** [a-zA-Z] *)
Definition is_ascii_letter (c : ascii) : bool :=
  between 97 122 c || between 65 90 c.

(** [\s] : tab, newline, vertical tab, form feed, carriage return, the four
    separators 28..31, space, NEL (133) and no-break space (160). *)
Definition is_space (c : ascii) : bool :=
  between 9 13 c || between 28 32 c || (ord c =? 133) || (ord c =? 160).

(** Latin-1 code points above 127 that [str.isalnum] accepts. *)
Definition is_latin1_alnum (c : ascii) : bool :=
  (ord c =? 170) || (ord c =? 178) || (ord c =? 179) || (ord c =? 181) ||
  (ord c =? 185) || (ord c =? 186) || between 188 190 c ||
  between 192 214 c || between 216 246 c || between 248 255 c.

(** [\w] : alphanumeric or underscore. *)
Definition is_word (c : ascii) : bool :=
  is_ascii_letter c || is_digit c || is_char "_" c || is_latin1_alnum c.

(** [[a-zA-Z_]] *)
Definition is_ident_start (c : ascii) : bool :=
  is_ascii_letter c || is_char "_" c.

(** [[0-9a-fA-F]] *)
Definition is_hex_digit (c : ascii) : bool :=
  is_digit c || between 97 102 c || between 65 70 c.

(** [[01]] and [[0-7]] *)
Definition is_bin_digit (c : ascii) : bool := between 48 49 c.
Definition is_oct_digit (c : ascii) : bool := between 48 55 c.

(** [.] without DOTALL: anything but a newline. *)
Definition is_dot (c : ascii) : bool := negb (is_char newline c).

(** A bracket class listing single characters, and its complement. *)
Fixpoint one_of (s : string) (c : ascii) : bool :=
  match s with
  | EmptyString => false
  | String a s' => is_char a c || one_of s' c
  end.

Definition none_of (s : string) (c : ascii) : bool := negb (one_of s c).

(** ** Regular expressions and the backtracking matcher *)

Inductive regex : Type :=
| Void                         (* matches nothing *)
| Eps                          (* the empty pattern *)
| Cls (p : ascii -> bool)      (* one character of a class *)
| Seq (r1 r2 : regex)          (* r1 r2 *)
| Alt (r1 r2 : regex)          (* r1|r2, left alternative first *)
| Star (r : regex)             (* r*  (greedy) *)
| StarLazy (r : regex)         (* r*? (lazy) *)
| Bol                          (* ^  under re.MULTILINE *)
| Eol                          (* $  under re.MULTILINE *)
| WordB.                       (* \b *)

Definition Chr (c : ascii) : regex := Cls (is_char c).

Fixpoint Lit (s : string) : regex :=
  match s with
  | EmptyString => Eps
  | String c s' => Seq (Chr c) (Lit s')
  end.

Fixpoint Seqs (rs : list regex) : regex :=
  match rs with
  | [] => Eps
  | [r] => r
  | r :: rs' => Seq r (Seqs rs')
  end.

Fixpoint Alts (rs : list regex) : regex :=
  match rs with
  | [] => Void
  | [r] => r
  | r :: rs' => Alt r (Alts rs')
  end.

Definition Plus (r : regex) : regex := Seq r (Star r).
Definition Opt (r : regex) : regex := Alt r Eps.
Definition Words (ws : list string) : regex := Alts (map Lit ws).

(** Does position [i] of [code] hold a character of class [p]? *)
Definition char_at (p : ascii -> bool) (code : string) (i : nat) : bool :=
  match get i code with
  | Some c => p c
  | None => false
  end.

Definition at_bol (code : string) (i : nat) : bool :=
  match i with
  | 0 => true
  | S j => char_at (is_char newline) code j
  end.

Definition at_eol (code : string) (i : nat) : bool :=
  (i =? String.length code) || char_at (is_char newline) code i.

Definition at_word_boundary (code : string) (i : nat) : bool :=
  let before := match i with 0 => false | S j => char_at is_word code j end in
  negb (Bool.eqb before (char_at is_word code i)).

(** Iteration of a pattern body whose one-step matcher is [step].  An
    iteration that consumes nothing is not repeated (the bodies iterated in
    the pattern table always consume a character).  [fuel] bounds the
    number of iterations; the matcher passes more than the number of
    characters left, which is enough ([ends_Star], [ends_StarLazy]). *)
Fixpoint star_greedy (step : nat -> list nat) (fuel i : nat) : list nat :=
  match fuel with
  | 0 => [i]
  | S fuel' =>
      flat_map (fun j => if i <? j then star_greedy step fuel' j else [])
               (step i) ++ [i]
  end.

Fixpoint star_lazy (step : nat -> list nat) (fuel i : nat) : list nat :=
  match fuel with
  | 0 => [i]
  | S fuel' =>
      i :: flat_map (fun j => if i <? j then star_lazy step fuel' j else [])
                    (step i)
  end.

(** [ends r code i]: every offset at which a match of [r] starting at offset
    [i] of [code] can end, in the order in which a backtracking matcher tries
    them.  The head of the list is the match the engine reports. *)
Fixpoint ends (r : regex) (code : string) (i : nat) : list nat :=
  match r with
  | Void => []
  | Eps => [i]
  | Cls p => if char_at p code i then [S i] else []
  | Seq r1 r2 => flat_map (ends r2 code) (ends r1 code i)
  | Alt r1 r2 => ends r1 code i ++ ends r2 code i
  | Star r1 => star_greedy (ends r1 code) (S (String.length code - i)) i
  | StarLazy r1 => star_lazy (ends r1 code) (S (String.length code - i)) i
  | Bol => if at_bol code i then [i] else []
  | Eol => if at_eol code i then [i] else []
  | WordB => if at_word_boundary code i then [i] else []
  end.

Definition match_at (r : regex) (code : string) (i : nat) : option nat :=
  hd_error (ends r code i).

(** ** The pattern table of [SimpleRegexLexer.__init__] *)

Definition sp : regex := Star (Cls is_space).          (* \s* *)
Definition digits : regex := Plus (Cls is_digit).      (* \d+ *)
Definition digits0 : regex := Star (Cls is_digit).     (* \d* *)
Definition backslash : ascii := ascii_of_nat 92.
Definition dquote : ascii := ascii_of_nat 34.
Definition squote : ascii := ascii_of_nat 39.

(** [//.*|/\*[\s\S]*?\*/] *)
Definition COMMENT : regex :=
  Alt (Seq (Lit "//") (Star (Cls is_dot)))
      (Seqs [Lit "/*"; StarLazy (Cls (fun _ => true)); Lit "*/"]).

(** [^\s*#\s*include\s*<[^>]+>] *)
Definition STANDARD_LIBRARY : regex :=
  Seqs [Bol; sp; Chr "#"; sp; Lit "include"; sp;
        Chr "<"; Plus (Cls (none_of ">")); Chr ">"].

(** [^\s*#\s*include\s*Q[^Q]+Q], writing Q for the double quote *)
Definition OWN_LIBRARY : regex :=
  Seqs [Bol; sp; Chr "#"; sp; Lit "include"; sp;
        Chr dquote; Plus (Cls (fun c => negb (is_char dquote c))); Chr dquote].

(** [^\s*#\s*(define|undef|ifdef|ifndef|endif|pragma|error|warning|elif|else)\b.*$] *)
Definition PREPROCESSOR : regex :=
  Seqs [Bol; sp; Chr "#"; sp;
        Words ["define"; "undef"; "ifdef"; "ifndef"; "endif"; "pragma";
               "error"; "warning"; "elif"; "else"];
        WordB; Star (Cls is_dot); Eol].

(** [Q(?:\\.|[^Q\\])* Q], writing Q for the double quote *)
Definition STRING : regex :=
  Seqs [Chr dquote;
        Star (Alt (Seq (Chr backslash) (Cls is_dot))
                  (Cls (fun c => negb (is_char dquote c || is_char backslash c))));
        Chr dquote].

(** [q(?:\\.|[^q\\])q], writing q for the single quote *)
Definition CHAR : regex :=
  Seqs [Chr squote;
        Alt (Seq (Chr backslash) (Cls is_dot))
            (Cls (fun c => negb (is_char squote c || is_char backslash c)));
        Chr squote].

(** [0[xX][0-9a-fA-F]+] *)
Definition HEX_NUMBER : regex :=
  Seqs [Chr "0"; Cls (one_of "xX"); Plus (Cls is_hex_digit)].

(** [0[bB][01]+] *)
Definition BINARY_NUMBER : regex :=
  Seqs [Chr "0"; Cls (one_of "bB"); Plus (Cls is_bin_digit)].

(** [(?:\d*\.\d+|\d+\.\d* )(?:[eE][-+]?\d+)?] *)
Definition FLOAT_NUMBER : regex :=
  Seq (Alt (Seqs [digits0; Chr "."; digits])
           (Seqs [digits; Chr "."; digits0]))
      (Opt (Seqs [Cls (one_of "eE"); Opt (Cls (one_of "-+")); digits])).

(** [0[0-7]+] *)
Definition OCTAL_NUMBER : regex := Seq (Chr "0") (Plus (Cls is_oct_digit)).

(** [\d+] *)
Definition INT_NUMBER : regex := digits.

(** [\b(if|else|for|...|sizeof)\b] *)
Definition KEYWORD : regex :=
  Seqs [WordB;
        Words ["if"; "else"; "for"; "while"; "do"; "return"; "class"; "using";
               "struct"; "public"; "namespace"; "private"; "protected";
               "static"; "const"; "virtual"; "new"; "delete"; "sizeof"];
        WordB].

(** [\b(int|float|double|char|void|bool|long|short|signed|unsigned)\b] *)
Definition TYPE : regex :=
  Seqs [WordB;
        Words ["int"; "float"; "double"; "char"; "void"; "bool"; "long";
               "short"; "signed"; "unsigned"];
        WordB].

(** [\b(true|false)\b] *)
Definition BOOLEAN : regex := Seqs [WordB; Words ["true"; "false"]; WordB].

(** [\b(nullptr|NULL)\b] *)
Definition NULL : regex := Seqs [WordB; Words ["nullptr"; "NULL"]; WordB].

(** [\+\+|--|->|::|<<|>>|<=|>=|==|!=|&&|\|\||\+=|-=|\*=|\/=|%=] *)
Definition OPERATOR_2CHAR : regex :=
  Words ["++"; "--"; "->"; "::"; "<<"; ">>"; "<="; ">="; "=="; "!="; "&&";
         "||"; "+="; "-="; "*="; "/="; "%="].

(** [[+\-*/%=<>!&|~^]] *)
Definition OPERATOR_1CHAR : regex := Cls (one_of "+-*/%=<>!&|~^").

(** [[{}()\[\];,.:?]] *)
Definition SYMBOL : regex := Cls (one_of "{}()[];,.:?").

(** [[a-zA-Z_]\w*] *)
Definition IDENTIFIER : regex := Seq (Cls is_ident_start) (Star (Cls is_word)).

(** [\w+::\w+] *)
Definition NAMESPACE : regex :=
  Seqs [Plus (Cls is_word); Lit "::"; Plus (Cls is_word)].

(** [\s+] *)
Definition WHITESPACE : regex := Plus (Cls is_space).

(** The dictionary [self.patterns], in insertion order: the order of the
    alternatives of [master_regex]. *)
Definition patterns : list (string * regex) :=
  [ ("COMMENT", COMMENT);
    ("STANDARD_LIBRARY", STANDARD_LIBRARY);
    ("OWN_LIBRARY", OWN_LIBRARY);
    ("PREPROCESSOR", PREPROCESSOR);
    ("STRING", STRING);
    ("CHAR", CHAR);
    ("HEX_NUMBER", HEX_NUMBER);
    ("BINARY_NUMBER", BINARY_NUMBER);
    ("FLOAT_NUMBER", FLOAT_NUMBER);
    ("OCTAL_NUMBER", OCTAL_NUMBER);
    ("INT_NUMBER", INT_NUMBER);
    ("KEYWORD", KEYWORD);
    ("TYPE", TYPE);
    ("BOOLEAN", BOOLEAN);
    ("NULL", NULL);
    ("OPERATOR_2CHAR", OPERATOR_2CHAR);
    ("OPERATOR_1CHAR", OPERATOR_1CHAR);
    ("SYMBOL", SYMBOL);
    ("IDENTIFIER", IDENTIFIER);
    ("NAMESPACE", NAMESPACE);
    ("WHITESPACE", WHITESPACE) ].

(** One match of [master_regex]: [lastgroup], [start()], [end()].  Every
    alternative is one named group closed last, so [lastgroup] is the name of
    the alternative that matched. *)
Record Match : Type := mkMatch {
  lastgroup : string;
  m_start : nat;
  m_end : nat
}.

(** [master_regex] tried at offset [i]: the first alternative, in table
    order, that matches there. *)
Fixpoint master_at (pats : list (string * regex)) (code : string) (i : nat)
  : option Match :=
  match pats with
  | [] => None
  | (name, r) :: rest =>
      match match_at r code i with
      | Some e => Some (mkMatch name i e)
      | None => master_at rest code i
      end
  end.

(** [master_regex.finditer(code)] resumed at offset [pos]: offsets where
    nothing matches are skipped; after a match the search resumes at its
    end, or one offset further had the match been empty (no alternative of
    the table matches the empty string, see [patterns_not_nullable]).
    [fuel] bounds the number of offsets visited; [finditer] passes one more
    than the length of the text, which is enough ([finditer_from_fuel]). *)
Fixpoint finditer_from (fuel : nat) (code : string) (pos : nat) : list Match :=
  match fuel with
  | 0 => []
  | S fuel' =>
      if String.length code <? pos then []
      else match master_at patterns code pos with
           | Some m =>
               m :: finditer_from fuel' code
                      (if pos <? m_end m then m_end m else S pos)
           | None => finditer_from fuel' code (S pos)
           end
  end.

Definition finditer (code : string) : list Match :=
  finditer_from (S (String.length code)) code 0.

(** ** String operations of the Python source *)

(** [sub in s] *)
Fixpoint contains (sub s : string) : bool :=
  prefix sub s ||
  match s with
  | EmptyString => false
  | String _ s' => contains sub s'
  end.

(** [s.split(sep)] for a non-empty [sep]: [cur] is the piece being read and
    [skip] the number of characters of a separator still to pass over. *)
Fixpoint split_go (sep : string) (skip : nat) (cur s : string) : list string :=
  match s with
  | EmptyString => [cur]
  | String c s' =>
      match skip with
      | S k => split_go sep k cur s'
      | 0 =>
          if prefix sep s
          then cur :: split_go sep (String.length sep - 1) EmptyString s'
          else split_go sep 0 (cur ++ String c EmptyString) s'
      end
  end.

Definition split (sep s : string) : list string :=
  split_go sep 0 EmptyString s.

(** [sep.join(parts)] *)
Definition join (sep : string) (parts : list string) : string :=
  String.concat sep parts.

(** [code[i:j]] for [i <= j]. *)
Definition slice (code : string) (i j : nat) : string :=
  substring i (j - i) code.

(** [re.search(r, s)]: the match at the leftmost offset that has one. *)
Fixpoint search_in (r : regex) (s : string) (offsets : list nat)
  : option (nat * nat) :=
  match offsets with
  | [] => None
  | i :: rest =>
      match match_at r s i with
      | Some e => Some (i, e)
      | None => search_in r s rest
      end
  end.

Definition search (r : regex) (s : string) : option (nat * nat) :=
  search_in r s (seq 0 (S (String.length s))).

(** ** Tokens and problems *)

Record Token : Type := mkToken {
  type : string;
  value : string;
  line : nat;
  column : nat;
  filename : string
}.

Module run_lexer.

Record Problem : Type := mkProblem {
  line : nat;
  message : string;
  solution : string
}.

(** [ProblemTracker]: the list [self.problems]. *)
Definition ProblemTracker : Type := list Problem.

Definition add_problem (tracker : ProblemTracker)
    (line : nat) (message solution : string) : ProblemTracker :=
  tracker ++ [mkProblem line message solution].

End run_lexer.

Import run_lexer (Problem, mkProblem, ProblemTracker, add_problem).

(** ** Line and column of an offset ([tokenize], lines 84-102) *)

(** Offsets just after each newline of [code], [i] being the offset of its
    first character. *)
Fixpoint newline_ends (i : nat) (code : string) : list nat :=
  match code with
  | EmptyString => []
  | String c rest =>
      if is_char newline c then S i :: newline_ends (S i) rest
      else newline_ends (S i) rest
  end.

Definition line_starts (code : string) : list nat := 0 :: newline_ends 0 code.

(** The loop [while line_num < len(line_starts) and
    line_starts[line_num] <= start_pos: line_num += 1], with [later] the
    entries of [line_starts] from index [line_num] on. *)
Fixpoint advance_line (later : list nat) (start_pos line_num : nat) : nat :=
  match later with
  | [] => line_num
  | s :: later' =>
      if s <=? start_pos then advance_line later' start_pos (line_num + 1)
      else line_num
  end.

Definition line_number (line_starts : list nat) (start_pos : nat) : nat :=
  advance_line (skipn 1 line_starts) start_pos 1.

(** ** The diagnostics of [find_problems] *)

(** The pattern of [re.search] in the include check: one of [<] and the
    double quote, then one or more characters that are neither [>] nor the
    double quote (group 1), then one of [>] and the double quote. *)
Definition open_delims : string := String "<" (String dquote EmptyString).
Definition close_delims : string := String ">" (String dquote EmptyString).

Definition LIB_NAME : regex :=
  Seqs [Cls (one_of open_delims); Plus (Cls (none_of close_delims));
        Cls (one_of close_delims)].

(** [key in d] and [d[key]] for a dict given by its items. *)
Fixpoint lookup (key : string) (d : list (string * string)) : option string :=
  match d with
  | [] => None
  | (k, v) :: d' => if (k =? key)%string then Some v else lookup key d'
  end.

(** The two literals at the top of [find_problems].  A Python set has no
    fixed iteration order; the list keeps the order of the literal. *)
Definition allowed_libs : list string := ["iostream"; "stl_library.py"; "stdio.h"].

Definition restricted_funcs : list (string * string) :=
  [ ("printf", "STLLibrary.printf()");
    ("scanf", "STLLibrary.scanf()");
    ("malloc", "STLLibrary.malloc()");
    ("free", "STLLibrary.free()") ].

Section Policy.

(** The lexer under an arbitrary policy; the source fixes the policy to
    [allowed_libs] and [restricted_funcs]. *)
Variable allowed : list string.
Variable restricted : list (string * string).

(** Group 1 of a [LIB_NAME] match spanning [s..e] is [value[s+1:e-1]]: the
    first and the last pattern element take one character each. *)
Definition find_problems_under (tracker : ProblemTracker)
    (token : Token) (value : string) : ProblemTracker :=
  if (type token =? "PREPROCESSOR")%string && contains "include" value then
    match search LIB_NAME value with
    | Some (s, e) =>
        let lib := slice value (S s) (e - 1) in
        if existsb (String.eqb lib) allowed then tracker
        else add_problem tracker (line token)
               ("Unauthorized library: " ++ lib)
               ("Allowed: " ++ join ", " allowed)
    | None => tracker
    end
  else if (type token =? "PREPROCESSOR")%string && contains "define" value then
    if contains "(" value then
      add_problem tracker (line token)
        ("Function-like macro: " ++ value)
        "Use constexpr functions instead"
    else
      add_problem tracker (line token)
        ("Constant macro: " ++ value)
        "Use constexpr variables instead"
  else if (type token =? "IDENTIFIER")%string && contains "(" value then
    let func_name := hd EmptyString (split "(" value) in
    match lookup func_name restricted with
    | Some replacement =>
        add_problem tracker (line token)
          ("Direct call to " ++ func_name ++ "()")
          ("Use " ++ replacement ++ " instead")
    | None => tracker
    end
  else if (type token =? "NAMESPACE")%string && contains "std::" value then
    let algo_name := last (split "::" value) EmptyString in
    add_problem tracker (line token)
      ("Using std::" ++ algo_name)
      ("Learning: Create your own " ++ algo_name ++ " implementation")
  else tracker.

(** The body of the [for match in ...finditer(code)] loop of [tokenize]:
    the state is [self.tokens] and the problem tracker. *)
Definition visit (code filename : string) (line_starts : list nat)
    (st : list Token * ProblemTracker) (m : Match)
  : list Token * ProblemTracker :=
  let token_type := lastgroup m in
  let value := slice code (m_start m) (m_end m) in
  let start_pos := m_start m in
  let line_num := line_number line_starts start_pos in
  let current_line_start := nth (line_num - 1) line_starts 0 in
  let column_num := start_pos - current_line_start + 1 in
  if (token_type =? "WHITESPACE")%string then st
  else
    let token := mkToken token_type value line_num column_num filename in
    (fst st ++ [token], find_problems_under (snd st) token value).

(** [tokenize] up to, and without, the call of [combine_function_calls]:
    the raw tokens and the tracker after the scan. *)
Definition scan_under (tracker : ProblemTracker) (code filename : string)
  : list Token * ProblemTracker :=
  fold_left (visit code filename (line_starts code)) (finditer code)
            ([], tracker).

End Policy.

(** ** The call merger *)

(** The inner [while i < len(tokens) and paren_count > 0] loop; [tokens] is
    [tokens[i:]].  Returns [call_tokens] and the tokens left. *)
Fixpoint collect_call (tokens : list Token) (paren_count : nat)
    (call_tokens : list string) : list string * list Token :=
  match tokens with
  | [] => (call_tokens, [])
  | current_token :: rest =>
      if 0 <? paren_count then
        let call_tokens := call_tokens ++ [value current_token] in
        if (value current_token =? "(")%string then
          collect_call rest (paren_count + 1) call_tokens
        else if (value current_token =? ")")%string then
          collect_call rest (paren_count - 1) call_tokens
        else collect_call rest paren_count call_tokens
      else (call_tokens, tokens)
  end.

(** The test [token.type == "IDENTIFIER" and tokens[i+1].type == "SYMBOL"
    and tokens[i+1].value == "("]. *)
Definition is_call_start (token next : Token) : bool :=
  (type token =? "IDENTIFIER")%string && (type next =? "SYMBOL")%string
  && (value next =? "(")%string.

Definition call_token (token : Token) (call_tokens : list string) : Token :=
  mkToken "FUNCTION_CALL" (join EmptyString call_tokens)
          (line token) (column token) (filename token).

Equations? combine_function_calls (tokens : list Token) : list Token
  by wf (length tokens) lt :=
  combine_function_calls [] := [];
  combine_function_calls [token] := [token];
  combine_function_calls (token :: next :: rest) with is_call_start token next := {
    | true :=
        call_token token
          (fst (collect_call rest 1 [value token; value next]))
        :: combine_function_calls
             (snd (collect_call rest 1 [value token; value next]));
    | false := token :: combine_function_calls (next :: rest) }.
Proof.
  assert (H : forall tokens paren_count call_tokens,
            length (snd (collect_call tokens paren_count call_tokens))
            <= length tokens).
  { induction tokens as [|t ts IH]; intros p acc; simpl; [lia|].
    destruct (0 <? p); simpl; [|lia].
    destruct (value t =? "(")%string;
      [specialize (IH (p + 1) (acc ++ [value t])); lia|].
    destruct (value t =? ")")%string;
      [specialize (IH (p - 1) (acc ++ [value t]))
      |specialize (IH p (acc ++ [value t]))]; lia. }
  specialize (H rest 1 [value token; value next]). simpl. lia.
Qed.

(** ** [tokenize] *)

Definition tokenize_under (allowed : list string)
    (restricted : list (string * string)) (tracker : ProblemTracker)
    (code filename : string) : list Token * ProblemTracker :=
  let (tokens, tracker') := scan_under allowed restricted tracker code filename in
  (combine_function_calls tokens, tracker').

Definition find_problems : ProblemTracker -> Token -> string -> ProblemTracker :=
  find_problems_under allowed_libs restricted_funcs.

Definition scan : ProblemTracker -> string -> string -> list Token * ProblemTracker :=
  scan_under allowed_libs restricted_funcs.

Definition tokenize : ProblemTracker -> string -> string -> list Token * ProblemTracker :=
  tokenize_under allowed_libs restricted_funcs.

(** ** [run_lexer.py]: how tokens are displayed *)

(** [s.startswith(p)] is [prefix p s]; [s.endswith(p)]: *)
Definition endswith (p s : string) : bool :=
  (String.length p <=? String.length s) &&
  (substring (String.length s - String.length p) (String.length p) s =? p)%string.

(** [s[a:-b]] for [b > 0], and [s[a:]] when [b] is 0: from offset [a] to
    [b] characters before the end, empty when the two cross. *)
Definition cut (s : string) (a b : nat) : string :=
  substring a (String.length s - b - a) s.

(** [s.lstrip()], [s.rstrip()] and [s.strip()]. *)
Fixpoint lstrip (s : string) : string :=
  match s with
  | EmptyString => EmptyString
  | String c s' => if is_space c then lstrip s' else s
  end.

Fixpoint rstrip (s : string) : string :=
  match s with
  | EmptyString => EmptyString
  | String c s' =>
      match rstrip s' with
      | EmptyString => if is_space c then EmptyString else String c EmptyString
      | r => String c r
      end
  end.

Definition strip (s : string) : string := lstrip (rstrip s).

(** [s.replace(old, new)] for a non-empty [old]: the pieces between the
    occurrences of [old], joined by [new]. *)
Definition replace (old new s : string) : string := join new (split old s).

Definition newline_string : string := String newline EmptyString.
Definition dquote_string : string := String dquote EmptyString.
Definition squote_string : string := String squote EmptyString.

(** A value of [type_map]: a label, or a function of the lexeme. *)
Inductive mapper : Type :=
| Label (label : string)
| Lambda (f : string -> string).

(** The lambda of the entry IDENTIFIER. *)
Definition identifier_label (v : string) : string :=
  if contains "(" v && contains ")" v && negb (prefix "#" v)
  then "Function" else "Identifier".

Definition type_map : list (string * mapper) :=
  [ ("STANDARD_LIBRARY", Label "Library File");
    ("OWN_LIBRARY", Label "Own Library");
    ("PREPROCESSOR", Label "CPP Directive");
    ("KEYWORD", Label "Keyword");
    ("TYPE", Label "Data type");
    ("IDENTIFIER", Lambda identifier_label);
    ("OPERATOR_1CHAR", Label "Operator");
    ("OPERATOR_2CHAR", Label "Operator");
    ("SYMBOL", Label "Symbol");
    ("COMMENT", Label "Comment");
    ("STRING", Label "String Literal");
    ("CHAR", Label "Character Literal");
    ("INT_NUMBER", Label "Number");
    ("FLOAT_NUMBER", Label "Number");
    ("HEX_NUMBER", Label "Number");
    ("BINARY_NUMBER", Label "Number");
    ("OCTAL_NUMBER", Label "Number");
    ("BOOLEAN", Label "Boolean");
    ("NULL", Label "Null");
    ("NAMESPACE", Label "Namespace") ].

Fixpoint lookup_mapper (key : string) (d : list (string * mapper))
  : option mapper :=
  match d with
  | [] => None
  | (k, v) :: d' => if (k =? key)%string then Some v else lookup_mapper key d'
  end.

Definition format_token_type (token_type value : string) : string :=
  match lookup_mapper token_type type_map with
  | Some (Lambda f) => f value
  | Some (Label label) => label
  | None => token_type
  end.

Definition format_token_value (value : string) : string :=
  if prefix "//" value then strip (cut value 2 0)
  else if prefix "/*" value then
    let lines := split newline_string (cut value 2 2) in
    if 1 <? length lines then (strip (hd EmptyString lines) ++ " ...")%string
    else
      match strip (hd EmptyString lines) with
      | EmptyString => "multi-line comment"
      | stripped => stripped
      end
  else if prefix dquote_string value && endswith dquote_string value then
    let content := cut value 1 1 in
    let content := replace "\t" "\\t" (replace "\n" "\\n" content) in
    (dquote_string ++ content ++ dquote_string)%string
  else if prefix squote_string value && endswith squote_string value then
    (squote_string ++ cut value 1 1 ++ squote_string)%string
  else if prefix "#" value then
    if contains "include" value then
      match search LIB_NAME value with
      | Some (s, e) => slice value (S s) (e - 1)
      | None => value
      end
    else value
  else value.

(** ** [stl_library.py]: the reference algorithms *)

Module stl_library.

(** [STLLibrary.sort] on a list of integers.  The two recursive calls pass
    no second argument, so they sort in ascending order; a list of at most
    one element is returned as it is. *)
Equations? sort (arr : list Z) (ascending : bool) : list Z
  by wf (length arr) lt :=
  sort [] _ := [];
  sort [x] _ := [x];
  sort (x :: y :: l) ascending :=
    let arr := x :: y :: l in
    let pivot := nth (length arr / 2) arr 0%Z in
    let left := filter (fun x => (x <? pivot)%Z) arr in
    let middle := filter (fun x => (x =? pivot)%Z) arr in
    let right := filter (fun x => (pivot <? x)%Z) arr in
    let result := sort left true ++ middle ++ sort right true in
    if ascending then result else rev result.
Proof.
  all: assert (Hle : forall (f : Z -> bool) (a : list Z),
                 length (filter f a) <= length a)
    by (intros f a; induction a as [|z a IH]; simpl;
        [lia | destruct (f z); simpl; lia]).
  all: assert (Hlt : forall (f : Z -> bool) (a : list Z) (p : Z),
                 In p a -> f p = false -> length (filter f a) < length a)
    by (intros f a; induction a as [|z a IH]; intros p Hp Hf;
        [contradiction|];
        simpl; destruct Hp as [->|Hp];
        [rewrite Hf; specialize (Hle f a); lia
        |specialize (IH p Hp Hf); destruct (f z); simpl; lia]).
  all: assert (Hin : In (nth (length (x :: y :: l) / 2) (x :: y :: l) 0%Z)
                        (x :: y :: l))
    by (apply nth_In, Nat.div_lt; simpl; lia).
  - exact (Hlt (fun z => (z <? _)%Z) _ _ Hin (Z.ltb_irrefl _)).
  - exact (Hlt (fun z => (_ <? z)%Z) _ _ Hin (Z.ltb_irrefl _)).
Qed.

(** [arr[i]] as an index into a list of length [len]: a negative index
    counts from the end; [None] is Python's IndexError. *)
Definition index (len : nat) (i : Z) : option nat :=
  let j := if (i <? 0)%Z then (i + Z.of_nat len)%Z else i in
  if ((0 <=? j)%Z && (j <? Z.of_nat len)%Z) then Some (Z.to_nat j) else None.

Definition getitem {A} (arr : list A) (i : Z) : option A :=
  match index (length arr) i with
  | Some n => nth_error arr n
  | None => None
  end.

Fixpoint update {A} (n : nat) (x : A) (l : list A) : list A :=
  match l, n with
  | [], _ => []
  | _ :: l', 0 => x :: l'
  | a :: l', S n' => a :: update n' x l'
  end.

Definition setitem {A} (arr : list A) (i : Z) (x : A) : option (list A) :=
  match index (length arr) i with
  | Some n => Some (update n x arr)
  | None => None
  end.

(** [arr[left], arr[right] = arr[right], arr[left]]: both reads, then the
    two writes. *)
Definition swap_items {A} (arr : list A) (left right : Z) : option (list A) :=
  match getitem arr right, getitem arr left with
  | Some a, Some b =>
      match setitem arr left a with
      | Some arr1 => setitem arr1 right b
      | None => None
      end
  | _, _ => None
  end.

(** The loop [while left < right] of [STLLibrary.reverse], with [left_] and
    [right_] for the two indices; the result is the list [arr] holds at the
    end, [None] if an index was out of range. *)
Equations? reverse_loop {A} (arr : list A) (left_ right_ : Z)
  : option (list A) by wf (Z.to_nat (right_ - left_)) lt :=
  reverse_loop arr left_ right_ with Z_lt_dec left_ right_ := {
    | left _ with swap_items arr left_ right_ := {
        | Some arr' := reverse_loop arr' (left_ + 1) (right_ - 1);
        | None := None };
    | right _ := Some arr }.
Proof. lia. Qed.

Definition reverse {A} (arr : list A) : option (list A) :=
  reverse_loop arr 0 (Z.of_nat (length arr) - 1).

(** The loop of [STLLibrary.find], [i] being the index of the first item of
    [arr]. *)
Fixpoint find_from (i : Z) (arr : list Z) (target : Z) : Z :=
  match arr with
  | [] => (-1)%Z
  | item :: rest =>
      if (item =? target)%Z then i else find_from (i + 1) rest target
  end.

Definition find (arr : list Z) (target : Z) : Z := find_from 0 arr target.

End stl_library.

(** * Vocabulary of the properties *)

(** Width below which no match of a pattern can end. *)
Fixpoint min_width (r : regex) : nat :=
  match r with
  | Cls _ => 1
  | Seq r1 r2 => min_width r1 + min_width r2
  | Alt r1 r2 => Nat.min (min_width r1) (min_width r2)
  | _ => 0
  end.

(** Every character class of the pattern is included in [P]. *)
Fixpoint consumes_only (P : ascii -> bool) (r : regex) : Prop :=
  match r with
  | Cls p => forall c, p c = true -> P c = true
  | Seq r1 r2 | Alt r1 r2 => consumes_only P r1 /\ consumes_only P r2
  | Star r1 | StarLazy r1 => consumes_only P r1
  | _ => True
  end.

(** The one-step matches of the classes of [r] are in the relation [R]
    between offsets of [code]. *)
Fixpoint steps_in (R : nat -> nat -> Prop) (code : string) (r : regex) : Prop :=
  match r with
  | Cls p => forall i, char_at p code i = true -> R i (S i)
  | Seq r1 r2 | Alt r1 r2 => steps_in R code r1 /\ steps_in R code r2
  | Star r1 | StarLazy r1 => steps_in R code r1
  | _ => True
  end.

(** Can [r] match the empty string at an offset whose line-start status is
    [bol]?  (An over-approximation.) *)
Fixpoint nullable (bol : bool) (r : regex) : bool :=
  match r with
  | Void | Cls _ => false
  | Seq r1 r2 => nullable bol r1 && nullable bol r2
  | Alt r1 r2 => nullable bol r1 || nullable bol r2
  | Bol => bol
  | _ => true
  end.

(** The characters a non-empty match of [r] can start with. *)
Fixpoint first (bol : bool) (r : regex) (c : ascii) : bool :=
  match r with
  | Cls p => p c
  | Seq r1 r2 => first bol r1 c || (nullable bol r1 && first bol r2 c)
  | Alt r1 r2 => first bol r1 c || first bol r2 c
  | Star r1 | StarLazy r1 => first bol r1 c
  | _ => false
  end.

(** The matches found from [pos] on: each is a match of the master pattern
    at its own start, and each starts at or after the end of the one
    before. *)
Inductive scanned (code : string) : nat -> list Match -> Prop :=
| scanned_nil pos : scanned code pos []
| scanned_cons pos m ms :
    pos <= m_start m ->
    master_at patterns code (m_start m) = Some m ->
    scanned code (m_end m) ms ->
    scanned code pos (m :: ms).

(** The token [tokenize] builds for a match. *)
Definition token_of (code filename : string) (m : Match) : Token :=
  let line_num := line_number (line_starts code) (m_start m) in
  mkToken (lastgroup m) (slice code (m_start m) (m_end m)) line_num
          (m_start m - nth (line_num - 1) (line_starts code) 0 + 1) filename.

Definition is_whitespace (m : Match) : bool :=
  (lastgroup m =? "WHITESPACE")%string.

Definition kept (ms : list Match) : list Match :=
  filter (fun m => negb (is_whitespace m)) ms.

(** [(line, column)] of [a] is at or before that of [b]. *)
Definition position_le (a b : Token) : Prop :=
  line a < line b \/ (line a = line b /\ column a <= column b).

(** The offset in [code] of the first character of a token, recovered from
    its line and column. *)
Definition offset_of (code : string) (t : Token) : nat :=
  nth (line t - 1) (line_starts code) 0 + (column t - 1).

(** The span of [a] ends at or before the start of the span of [b]. *)
Definition span_before (code : string) (a b : Token) : Prop :=
  offset_of code a + String.length (value a) <= offset_of code b.

(** No token of the list is an identifier directly followed by the symbol
    [(]. *)
Fixpoint call_free (tokens : list Token) : bool :=
  match tokens with
  | token :: (next :: _) as rest =>
      negb (is_call_start token next) && call_free rest
  | _ => true
  end.

(** The lexemes of [tokens] close every parenthesis they open, in order,
    starting from nesting depth [depth]. *)
Fixpoint balanced_from (depth : nat) (tokens : list Token) : bool :=
  match tokens with
  | [] => depth =? 0
  | t :: rest =>
      if (value t =? "(")%string then balanced_from (S depth) rest
      else if (value t =? ")")%string then
        match depth with
        | 0 => false
        | S d => balanced_from d rest
        end
      else balanced_from depth rest
  end.


(** Every character of a text is in the class [P]. *)
Fixpoint all_chars (P : ascii -> bool) (s : string) : bool :=
  match s with
  | EmptyString => true
  | String c s' => P c && all_chars P s'
  end.

(** [P] holds of each of the 256 characters. *)
Definition all_ascii (P : ascii -> bool) : bool :=
  forallb (fun n => P (ascii_of_nat n)) (seq 0 256).

(** Every match of [r] takes at least one character that is not white space
    (a sufficient test). *)
Fixpoint takes_nonspace (r : regex) : bool :=
  match r with
  | Cls p => all_ascii (fun c => negb (is_space c && p c))
  | Seq r1 r2 => takes_nonspace r1 || takes_nonspace r2
  | Alt r1 r2 => takes_nonspace r1 && takes_nonspace r2
  | _ => false
  end.

(** The labels of [type_map] that a token can be shown under. *)
Definition display_labels : list string :=
  ["Library File"; "Own Library"; "CPP Directive"; "Keyword"; "Data type";
   "Identifier"; "Operator"; "Symbol"; "Comment"; "String Literal";
   "Character Literal"; "Number"; "Boolean"; "Null"; "Namespace"].

(** The characters that make [format_token_value] reformat a lexeme that
    starts with one of them. *)
Definition reformat_starts : string :=
  String "/" (String dquote (String squote (String "#" EmptyString))).

(** A match of [r] never starts with a character of [reformat_starts],
    whether at the start of a line or not (a sufficient test). *)
Definition starts_plain (r : regex) : bool :=
  all_ascii (fun c => negb ((first true r c || first false r c)
                            && one_of reformat_starts c)).

(** The types that [format_token_value] is written to reformat. *)
Definition reformatted_types : list string :=
  ["COMMENT"; "STANDARD_LIBRARY"; "OWN_LIBRARY"; "PREPROCESSOR"; "STRING";
   "CHAR"].

(** The pattern that the table gives a name. *)
Fixpoint pattern_named (name : string) (pats : list (string * regex))
  : option regex :=
  match pats with
  | [] => None
  | (n, r) :: rest =>
      if (n =? name)%string then Some r else pattern_named name rest
  end.

(** The types of the three kinds of directive. *)
Definition directive_types : list string :=
  ["STANDARD_LIBRARY"; "OWN_LIBRARY"; "PREPROCESSOR"].

(** The words of the four closed word classes, as their patterns list
    them. *)
Definition reserved_words (type : string) : list string :=
  if (type =? "KEYWORD")%string then
    ["if"; "else"; "for"; "while"; "do"; "return"; "class"; "using";
     "struct"; "public"; "namespace"; "private"; "protected"; "static";
     "const"; "virtual"; "new"; "delete"; "sizeof"]
  else if (type =? "TYPE")%string then
    ["int"; "float"; "double"; "char"; "void"; "bool"; "long"; "short";
     "signed"; "unsigned"]
  else if (type =? "BOOLEAN")%string then ["true"; "false"]
  else if (type =? "NULL")%string then ["nullptr"; "NULL"]
  else [].

(** * Properties of the matcher *)

Lemma in_flat_map_if {A} (f : nat -> list A) (c : nat -> bool) l x :
  In x (flat_map (fun j => if c j then f j else []) l) ->
  exists j, In j l /\ c j = true /\ In x (f j).
Proof.
  rewrite in_flat_map. intros [j [Hj Hx]].
  destruct (c j) eqn:E; [eauto | contradiction].
Qed.

Section Paths.

(** A relation between the two ends of a match that holds of the empty
    match, composes, and may be assumed of each one-step match. *)
Variable R : nat -> nat -> Prop.
Hypothesis R_refl : forall i, R i i.
Hypothesis R_trans : forall i j k, R i j -> R j k -> R i k.

Lemma star_greedy_path step fuel :
  (forall i e, In e (step i) -> R i e) ->
  forall i e, In e (star_greedy step fuel i) -> R i e.
Proof.
  intros Hstep. induction fuel as [|n IH]; intros i e; simpl.
  - intros [<-|[]]. apply R_refl.
  - rewrite in_app_iff. intros [H|[<-|[]]]; [|apply R_refl].
    apply in_flat_map_if in H. destruct H as [j [Hj [_ He]]].
    eapply R_trans; [apply Hstep, Hj | apply IH, He].
Qed.

Lemma star_lazy_path step fuel :
  (forall i e, In e (step i) -> R i e) ->
  forall i e, In e (star_lazy step fuel i) -> R i e.
Proof.
  intros Hstep. induction fuel as [|n IH]; intros i e; simpl.
  - intros [<-|[]]. apply R_refl.
  - intros [<-|H]; [apply R_refl|].
    apply in_flat_map_if in H. destruct H as [j [Hj [_ He]]].
    eapply R_trans; [apply Hstep, Hj | apply IH, He].
Qed.

Variable code : string.

Lemma ends_path r :
  steps_in R code r -> forall i e, In e (ends r code i) -> R i e.
Proof.
  induction r as [| |p|r1 IH1 r2 IH2|r1 IH1 r2 IH2|r1 IH1|r1 IH1| | |];
    cbn [ends steps_in]; intros Hr i e He.
  - contradiction.
  - destruct He as [<-|[]]. apply R_refl.
  - destruct (char_at p code i) eqn:E; [|contradiction].
    destruct He as [<-|[]]. apply Hr, E.
  - destruct Hr as [H1 H2]. apply in_flat_map in He.
    destruct He as [j [Hj He]].
    eapply R_trans; [apply IH1 | apply IH2]; eassumption.
  - destruct Hr as [H1 H2]. apply in_app_iff in He.
    destruct He; [apply IH1 | apply IH2]; assumption.
  - eapply star_greedy_path; [|exact He]. intros; apply IH1; assumption.
  - eapply star_lazy_path; [|exact He]. intros; apply IH1; assumption.
  - destruct (at_bol code i); [|contradiction].
    destruct He as [<-|[]]. apply R_refl.
  - destruct (at_eol code i); [|contradiction].
    destruct He as [<-|[]]. apply R_refl.
  - destruct (at_word_boundary code i); [|contradiction].
    destruct He as [<-|[]]. apply R_refl.
Qed.

End Paths.

Lemma char_at_lt p code i : char_at p code i = true -> i < String.length code.
Proof.
  unfold char_at. destruct (get i code) eqn:E; [|discriminate].
  intros _. revert i E. induction code as [|c s IH]; intros [|i]; simpl;
    try discriminate; try lia.
  intros E. apply IH in E. lia.
Qed.

(** A match runs forward and stays inside the text. *)
Lemma ends_bounds r code i e :
  In e (ends r code i) ->
  i <= e /\ (i <= String.length code -> e <= String.length code).
Proof.
  apply (ends_path (fun i e => i <= e /\
           (i <= String.length code -> e <= String.length code))).
  - intros; lia.
  - intros; lia.
  - induction r; simpl; auto.
    intros j Hj. apply char_at_lt in Hj. lia.
Qed.

(** A match is at least [min_width] wide. *)
Lemma ends_min_width r code : forall i e,
  In e (ends r code i) -> i + min_width r <= e.
Proof.
  induction r as [| |p|r1 IH1 r2 IH2|r1 IH1 r2 IH2|r1 IH1|r1 IH1| | |];
    intros i e He;
    try (apply ends_bounds in He; simpl; lia).
  - cbn [ends min_width] in *. destruct (char_at p code i); [|contradiction].
    destruct He as [<-|[]]. lia.
  - cbn [ends min_width] in *. apply in_flat_map in He. destruct He as [j [Hj He]].
    apply IH1 in Hj. apply IH2 in He. lia.
  - cbn [ends min_width] in *. apply in_app_iff in He.
    destruct He as [He|He]; [apply IH1 in He | apply IH2 in He]; lia.
Qed.

(** Every character inside a match belongs to the classes of the pattern. *)
Lemma ends_chars P r code i e :
  consumes_only P r -> In e (ends r code i) ->
  forall k, i <= k < e -> char_at P code k = true.
Proof.
  intros Hr He.
  assert (H : i <= e /\ forall k, i <= k < e -> char_at P code k = true);
    [|apply H].
  revert i e He.
  apply (ends_path (fun i e => i <= e /\
           forall k, i <= k < e -> char_at P code k = true)).
  - intros; split; [lia | intros; lia].
  - intros a b c [Hab H1] [Hbc H2]. split; [lia|].
    intros k Hk. destruct (Nat.lt_ge_cases k b); [apply H1 | apply H2]; lia.
  - induction r; simpl in *; try tauto.
    intros j Hj. split; [lia|]. intros k Hk. assert (k = j) as -> by lia.
    unfold char_at in *. destruct (get j code); [auto | discriminate].
Qed.

(** ** The iteration bounds are never reached *)

Lemma ends_within r code i e :
  In e (ends r code i) -> i <= e <= Nat.max i (String.length code).
Proof.
  apply (ends_path (fun i e => i <= e <= Nat.max i (String.length code))).
  - intros; lia.
  - intros; lia.
  - induction r; simpl; auto.
    intros j Hj. apply char_at_lt in Hj. lia.
Qed.

Lemma flat_map_ext_In {A B} (f g : A -> list B) l :
  (forall a, In a l -> f a = g a) -> flat_map f l = flat_map g l.
Proof.
  induction l as [|a l IH]; simpl; intros H; [reflexivity|].
  rewrite (H a), IH; auto.
Qed.

Section Fuel.

Variable step : nat -> list nat.
Variable len : nat.
Hypothesis step_within : forall i e, In e (step i) -> i <= e <= Nat.max i len.

Lemma star_greedy_fuel : forall f1 f2 i,
  len - i < f1 -> len - i < f2 ->
  star_greedy step f1 i = star_greedy step f2 i.
Proof.
  induction f1 as [|n1 IH]; intros [|n2] i H1 H2; try lia.
  simpl. f_equal. apply flat_map_ext_In. intros j Hj.
  destruct (i <? j) eqn:E; [|reflexivity].
  apply Nat.ltb_lt in E. apply step_within in Hj. apply IH; lia.
Qed.

Lemma star_lazy_fuel : forall f1 f2 i,
  len - i < f1 -> len - i < f2 ->
  star_lazy step f1 i = star_lazy step f2 i.
Proof.
  induction f1 as [|n1 IH]; intros [|n2] i H1 H2; try lia.
  simpl. f_equal. apply flat_map_ext_In. intros j Hj.
  destruct (i <? j) eqn:E; [|reflexivity].
  apply Nat.ltb_lt in E. apply step_within in Hj. apply IH; lia.
Qed.

End Fuel.

Lemma star_greedy_S step fuel i :
  star_greedy step (S fuel) i =
  flat_map (fun j => if i <? j then star_greedy step fuel j else [])
           (step i) ++ [i].
Proof. reflexivity. Qed.

Lemma star_lazy_S step fuel i :
  star_lazy step (S fuel) i =
  i :: flat_map (fun j => if i <? j then star_lazy step fuel j else [])
                (step i).
Proof. reflexivity. Qed.

(** The equation of the greedy star: one more iteration that consumes
    something, then the star again; failing that, stop here. *)
Lemma ends_Star r code i :
  ends (Star r) code i =
  flat_map (fun j => if i <? j then ends (Star r) code j else [])
           (ends r code i) ++ [i].
Proof.
  cbn [ends]. rewrite star_greedy_S. f_equal. apply flat_map_ext_In. intros j Hj.
  destruct (i <? j) eqn:E; [|reflexivity].
  apply Nat.ltb_lt in E. pose proof (ends_within _ _ _ _ Hj).
  apply star_greedy_fuel with (len := String.length code);
    [intros; eapply ends_within; eassumption | lia | lia].
Qed.

(** The equation of the lazy star: stop here; failing that, one more
    iteration. *)
Lemma ends_StarLazy r code i :
  ends (StarLazy r) code i =
  i :: flat_map (fun j => if i <? j then ends (StarLazy r) code j else [])
                (ends r code i).
Proof.
  cbn [ends]. rewrite star_lazy_S. f_equal. apply flat_map_ext_In. intros j Hj.
  destruct (i <? j) eqn:E; [|reflexivity].
  apply Nat.ltb_lt in E. pose proof (ends_within _ _ _ _ Hj).
  apply star_lazy_fuel with (len := String.length code);
    [intros; eapply ends_within; eassumption | lia | lia].
Qed.

(** ** The master pattern *)

Lemma master_at_sound pats code i m :
  master_at pats code i = Some m ->
  exists r, In (lastgroup m, r) pats /\ m_start m = i /\
            match_at r code i = Some (m_end m).
Proof.
  induction pats as [|[name r] pats IH]; simpl; [discriminate|].
  destruct (match_at r code i) as [e|] eqn:E.
  - intros [= <-]. exists r. simpl. auto.
  - intros H. destruct (IH H) as [r' [Hin Hr']]. exists r'. auto.
Qed.

Lemma match_at_In r code i e : match_at r code i = Some e -> In e (ends r code i).
Proof.
  unfold match_at. destruct (ends r code i); simpl; [discriminate|].
  intros [= ->]. left; reflexivity.
Qed.

(** No alternative of the master pattern matches the empty string. *)
Lemma patterns_not_nullable :
  Forall (fun nr => 1 <= min_width (snd nr)) patterns.
Proof. repeat constructor. Qed.

(** A match of the master pattern starts where it was tried, is not empty
    and ends inside the text. *)
Lemma master_at_span code i m :
  master_at patterns code i = Some m ->
  m_start m = i /\ i < m_end m <= String.length code.
Proof.
  intros H. apply master_at_sound in H. destruct H as [r [Hin [Hs He]]].
  apply match_at_In in He.
  pose proof (ends_min_width _ _ _ _ He) as Hw.
  pose proof (ends_within _ _ _ _ He) as Hb.
  pose proof patterns_not_nullable as Hn.
  rewrite Forall_forall in Hn. apply Hn in Hin. simpl in Hin. lia.
Qed.

(** The pattern that produced a match is the table entry of its name. *)
Lemma patterns_IDENTIFIER r : In ("IDENTIFIER", r) patterns -> r = IDENTIFIER.
Proof.
  unfold patterns. simpl.
  intros H. repeat (destruct H as [H|H]; [inversion H; try reflexivity|]).
  contradiction.
Qed.

(** ** [finditer] *)

Lemma finditer_from_fuel code : forall f1 f2 pos,
  S (String.length code) - pos <= f1 -> S (String.length code) - pos <= f2 ->
  finditer_from f1 code pos = finditer_from f2 code pos.
Proof.
  assert (Hout : forall f pos, String.length code < pos ->
                                finditer_from f code pos = []).
  { intros [|f] pos H; cbn [finditer_from]; [reflexivity|].
    apply Nat.ltb_lt in H. rewrite H. reflexivity. }
  induction f1 as [|n1 IH]; intros [|n2] pos H1 H2;
    try (rewrite !Hout by lia; reflexivity).
  cbn [finditer_from].
  destruct (String.length code <? pos) eqn:E; [reflexivity|].
  apply Nat.ltb_ge in E.
  destruct (master_at patterns code pos) as [m|] eqn:Em.
  - apply master_at_span in Em. destruct Em as [_ [Hlt Hle]].
    apply Nat.ltb_lt in Hlt. rewrite Hlt. apply Nat.ltb_lt in Hlt.
    f_equal. apply IH; lia.
  - apply IH; lia.
Qed.

Lemma scanned_weaken code pos pos' ms :
  scanned code pos ms -> pos' <= pos -> scanned code pos' ms.
Proof.
  intros H Hle. inversion H; subst; constructor; auto; lia.
Qed.

Lemma finditer_from_scanned code : forall fuel pos,
  scanned code pos (finditer_from fuel code pos).
Proof.
  induction fuel as [|n IH]; intros pos; cbn [finditer_from]; [constructor|].
  destruct (String.length code <? pos); [constructor|].
  destruct (master_at patterns code pos) as [m|] eqn:Em.
  - pose proof (master_at_span _ _ _ Em) as [Hs [Hlt _]].
    pose proof Hlt as Hlt'. apply Nat.ltb_lt in Hlt'. rewrite Hlt'.
    constructor; [lia | rewrite Hs; exact Em | apply IH].
  - apply scanned_weaken with (pos := S pos); [apply IH | lia].
Qed.

Lemma finditer_scanned code : scanned code 0 (finditer code).
Proof. apply finditer_from_scanned. Qed.

Lemma scanned_In code pos ms m :
  scanned code pos ms -> In m ms ->
  pos <= m_start m /\ master_at patterns code (m_start m) = Some m.
Proof.
  induction 1 as [|pos m' ms Hle Hm Hs IH]; simpl; [contradiction|].
  intros [<-|Hin]; [auto|].
  destruct (IH Hin) as [H1 H2]. split; [|exact H2].
  apply master_at_span in Hm. lia.
Qed.

(** ** The raw token sequence *)

Lemma visit_tokens allowed restricted code filename ms : forall st,
  fst (fold_left (visit allowed restricted code filename (line_starts code)) ms st)
  = fst st ++ map (token_of code filename) (kept ms).
Proof.
  induction ms as [|m ms IH]; intros st; simpl.
  - rewrite app_nil_r. reflexivity.
  - rewrite IH. unfold visit, is_whitespace.
    destruct (lastgroup m =? "WHITESPACE")%string; simpl; [reflexivity|].
    rewrite <- app_assoc. reflexivity.
Qed.

(** The raw tokens are the tokens of the matches other than whitespace, in
    order; they depend on neither the policy nor the tracker. *)
Lemma scan_tokens allowed restricted tracker code filename :
  fst (scan_under allowed restricted tracker code filename)
  = map (token_of code filename) (kept (finditer code)).
Proof. unfold scan_under. rewrite visit_tokens. reflexivity. Qed.

Lemma raw_token_match allowed restricted tracker code filename t :
  In t (fst (scan_under allowed restricted tracker code filename)) ->
  exists m, t = token_of code filename m /\
            master_at patterns code (m_start m) = Some m.
Proof.
  rewrite scan_tokens, in_map_iff. intros [m [<- Hm]].
  exists m. split; [reflexivity|].
  apply filter_In in Hm. destruct Hm as [Hm _].
  eapply scanned_In; [apply finditer_scanned | exact Hm].
Qed.

(** ** Strings *)

Lemma contains_char c s :
  contains (String c EmptyString) s = true -> exists k, get k s = Some c.
Proof.
  induction s as [|a s IH]; simpl; [discriminate|].
  destruct (Ascii.ascii_dec c a) as [->|Hne].
  - intros _. exists 0. reflexivity.
  - intros H. apply orb_true_iff in H. destruct H as [H|H]; [discriminate|].
    destruct (IH H) as [k Hk]. exists (S k). exact Hk.
Qed.

Lemma get_slice code i j k c :
  get k (slice code i j) = Some c -> get (i + k) code = Some c /\ i + k < j.
Proof.
  unfold slice. intros H.
  destruct (Nat.lt_ge_cases k (j - i)) as [Hlt|Hge].
  - rewrite substring_correct1 in H by exact Hlt.
    rewrite Nat.add_comm. split; [exact H | lia].
  - rewrite substring_correct2 in H by exact Hge. discriminate.
Qed.

Lemma length_slice code i j :
  i <= j <= String.length code -> String.length (slice code i j) = j - i.
Proof.
  unfold slice. intros H. remember (j - i) as n eqn:En.
  assert (Hn : i + n <= String.length code) by lia. clear En H j.
  revert i n Hn. induction code as [|c s IH]; intros [|i] [|n] Hn; simpl in *;
    try reflexivity; try lia.
  - f_equal. apply (IH 0 n). lia.
  - apply (IH i 0). lia.
  - apply (IH i (S n)). lia.
Qed.

(** ** Identifier lexemes *)

Lemma IDENTIFIER_consumes_words : consumes_only is_word IDENTIFIER.
Proof.
  simpl. split; [|auto].
  intros c H. unfold is_word, is_ident_start in *.
  apply orb_true_iff in H. destruct H as [-> | ->]; simpl;
    rewrite ?orb_true_r; reflexivity.
Qed.

Lemma identifier_lexeme_words code i e k c :
  match_at IDENTIFIER code i = Some e ->
  get k (slice code i e) = Some c -> is_word c = true.
Proof.
  intros Hm Hk. apply match_at_In in Hm. apply get_slice in Hk.
  destruct Hk as [Hk Hlt].
  pose proof (ends_chars is_word _ _ _ _ IDENTIFIER_consumes_words Hm (i + k)) as H.
  unfold char_at in H. rewrite Hk in H. apply H. lia.
Qed.

(** C3. For every source text, a raw token of type IDENTIFIER has no open
    parenthesis in its lexeme, and so [find_problems] adds no problem for
    it, whatever the policy: the restricted-call branch never emits. *)
Theorem identifier_has_no_paren allowed restricted tracker code filename t :
  In t (fst (scan_under allowed restricted tracker code filename)) ->
  type t = "IDENTIFIER" ->
  contains "(" (value t) = false /\
  forall tracker',
    find_problems_under allowed restricted tracker' t (value t) = tracker'.
Proof.
  intros Hin Hty.
  assert (Hno : contains "(" (value t) = false).
  { apply raw_token_match in Hin. destruct Hin as [m [Ht Hm]]. subst t.
    cbn [type value token_of] in *. apply master_at_sound in Hm.
    destruct Hm as [r [Hr [_ Hm]]]. rewrite Hty in Hr.
    apply patterns_IDENTIFIER in Hr. subst r.
    destruct (contains "(" (slice code (m_start m) (m_end m))) eqn:E;
      [|reflexivity].
    apply contains_char in E. destruct E as [k Hk].
    apply (identifier_lexeme_words _ _ _ _ _ Hm) in Hk. discriminate. }
  split; [exact Hno|].
  intros tracker'. unfold find_problems_under. rewrite Hty, Hno. reflexivity.
Qed.

Lemma identifier_has_no_paren_witness :
  contains "(" "printf" = false /\
  forall tracker',
    find_problems tracker' (mkToken "IDENTIFIER" "printf" 1 1 "input.txt")
                  "printf" = tracker'.
Proof.
  apply (identifier_has_no_paren allowed_libs restricted_funcs []
           "printf(x)" "input.txt"
           (mkToken "IDENTIFIER" "printf" 1 1 "input.txt")).
  - vm_compute. left. reflexivity.
  - reflexivity.
Defined.

(** ** Lines and columns *)

Lemma advance_line_ge later p : forall n, n <= advance_line later p n.
Proof.
  induction later as [|s later IH]; intros n; simpl; [lia|].
  destruct (s <=? p); [specialize (IH (n + 1)); lia | lia].
Qed.

(** A later offset is on the same line or on a later one. *)
Lemma advance_line_mono later : forall p q n,
  p <= q -> advance_line later p n <= advance_line later q n.
Proof.
  induction later as [|s later IH]; intros p q n Hpq; simpl; [lia|].
  destruct (s <=? p) eqn:Ep.
  - apply Nat.leb_le in Ep.
    assert (Eq : (s <=? q) = true) by (apply Nat.leb_le; lia).
    rewrite Eq. apply IH, Hpq.
  - destruct (s <=? q); [|lia].
    pose proof (advance_line_ge later q (n + 1)). lia.
Qed.

(** The loop of [tokenize] stops on a line that starts at or before the
    offset: [pre] is [line_starts[:line_num]]. *)
Lemma advance_line_start later p : forall pre,
  pre <> [] -> last pre 0 <= p ->
  nth (advance_line later p (length pre) - 1) (pre ++ later) 0 <= p.
Proof.
  assert (Hlast : forall (pre l : list nat), pre <> [] ->
            nth (length pre - 1) (pre ++ l) 0 = last pre 0).
  { intros pre l. induction pre as [|a [|b pre] IH]; intros Hne;
      [contradiction | reflexivity |].
    specialize (IH ltac:(discriminate)).
    simpl in *. rewrite Nat.sub_0_r in IH. exact IH. }
  induction later as [|s later IH]; intros pre Hne Hp; simpl.
  - rewrite Hlast by exact Hne. exact Hp.
  - destruct (s <=? p) eqn:Es.
    + apply Nat.leb_le in Es.
      specialize (IH (pre ++ [s])).
      rewrite length_app, <- app_assoc in IH. simpl in IH. apply IH.
      * destruct pre; discriminate.
      * rewrite last_last. exact Es.
    + rewrite Hlast by exact Hne. exact Hp.
Qed.

(** The subtraction in [column_num] never goes below zero. *)
Lemma line_start_le code p :
  nth (line_number (line_starts code) p - 1) (line_starts code) 0 <= p.
Proof.
  unfold line_number, line_starts. simpl skipn.
  apply (advance_line_start (newline_ends 0 code) p [0]);
    [discriminate | simpl; lia].
Qed.

(** ** Order and spans of tokens *)

Lemma offset_of_token code filename m :
  offset_of code (token_of code filename m) = m_start m.
Proof.
  unfold offset_of, token_of. cbn [line column].
  pose proof (line_start_le code (m_start m)). lia.
Qed.

Lemma token_of_position code filename m m' :
  m_start m <= m_start m' ->
  position_le (token_of code filename m) (token_of code filename m').
Proof.
  intros Hle. unfold position_le, token_of. cbn [line column].
  unfold line_number.
  pose proof (advance_line_mono (skipn 1 (line_starts code)) _ _ 1 Hle) as Hmono.
  apply Nat.lt_eq_cases in Hmono. destruct Hmono as [Hlt|Heq]; [left; exact Hlt|].
  right. split; [exact Heq|]. rewrite <- Heq. lia.
Qed.

Lemma token_of_span code filename m m' :
  m_start m <= m_end m <= String.length code -> m_end m <= m_start m' ->
  span_before code (token_of code filename m) (token_of code filename m').
Proof.
  intros Hm Hle. unfold span_before. rewrite !offset_of_token.
  unfold token_of at 1. cbn [value]. rewrite length_slice by exact Hm. lia.
Qed.

(** Matches found by the scan, taken pairwise in order: a later one starts
    at or after the end of an earlier one. *)
Lemma scanned_sorted code pos ms :
  scanned code pos ms ->
  StronglySorted (fun m m' => m_end m <= m_start m') ms /\
  Forall (fun m => pos <= m_start m /\ m_start m < m_end m <= String.length code) ms.
Proof.
  induction 1 as [|pos m ms Hle Hm Hs [IH1 IH2]]; [split; constructor|].
  pose proof (master_at_span _ _ _ Hm) as [_ Hspan].
  split.
  - constructor; [exact IH1|].
    eapply Forall_impl; [|exact IH2]. simpl. intros; lia.
  - constructor; [lia|].
    eapply Forall_impl; [|exact IH2]. simpl. intros; lia.
Qed.

Lemma StronglySorted_filter {A} (R : A -> A -> Prop) f l :
  StronglySorted R l -> StronglySorted R (filter f l).
Proof.
  induction 1 as [|a l Hs IH Hall]; simpl; [constructor|].
  destruct (f a); [|exact IH].
  constructor; [exact IH|].
  rewrite Forall_forall in *. intros x Hx. apply filter_In in Hx. apply Hall, Hx.
Qed.

Lemma StronglySorted_map {A B} (R : B -> B -> Prop) (g : A -> B) l :
  StronglySorted (fun x y => R (g x) (g y)) l -> StronglySorted R (map g l).
Proof.
  induction 1 as [|a l Hs IH Hall]; simpl; constructor; [exact IH|].
  rewrite Forall_forall in *. intros y Hy. apply in_map_iff in Hy.
  destruct Hy as [x [<- Hx]]. apply Hall, Hx.
Qed.

Lemma StronglySorted_impl_In {A} (R R' : A -> A -> Prop) l :
  (forall x y, In x l -> In y l -> R x y -> R' x y) ->
  StronglySorted R l -> StronglySorted R' l.
Proof.
  intros Himp Hs. induction Hs as [|a l Hs IH Hall]; constructor.
  - apply IH. intros x y Hx Hy. apply Himp; right; assumption.
  - rewrite Forall_forall in *. intros y Hy.
    apply Himp; [left; reflexivity | right; exact Hy | apply Hall, Hy].
Qed.

(** C9. For every source text the raw tokens, taken pairwise in order of
    emission, are non-decreasing in (line, column), and the span of an
    earlier one ends at or before the start of a later one: no two raw
    tokens overlap. *)
Theorem raw_tokens_ordered allowed restricted tracker code filename :
  let raw := fst (scan_under allowed restricted tracker code filename) in
  StronglySorted position_le raw /\ StronglySorted (span_before code) raw.
Proof.
  cbv zeta. rewrite scan_tokens.
  destruct (scanned_sorted _ _ _ (finditer_scanned code)) as [Hsorted Hall].
  assert (Hs : StronglySorted
                 (fun m m' => (m_start m <= m_end m <= String.length code) /\
                              m_end m <= m_start m') (finditer code)).
  { eapply StronglySorted_impl_In; [|exact Hsorted].
    intros x y Hx _ Hxy. rewrite Forall_forall in Hall.
    apply Hall in Hx. cbv beta in Hx, Hxy. lia. }
  apply (StronglySorted_filter _ (fun m => negb (is_whitespace m))) in Hs.
  fold (kept (finditer code)) in Hs.
  split; apply StronglySorted_map;
    (eapply StronglySorted_impl_In; [|exact Hs]); intros x y _ _ [Hx Hxy].
  - apply token_of_position. lia.
  - apply token_of_span; assumption.
Qed.

(** ** The call merger *)

Lemma combine_one_or_skip token next rest :
  is_call_start token next = false ->
  combine_function_calls (token :: next :: rest)
  = token :: combine_function_calls (next :: rest).
Proof. intros H. simp combine_function_calls. rewrite H. reflexivity. Qed.

Lemma combine_merge token next rest :
  is_call_start token next = true ->
  combine_function_calls (token :: next :: rest)
  = call_token token (fst (collect_call rest 1 [value token; value next]))
    :: combine_function_calls
         (snd (collect_call rest 1 [value token; value next])).
Proof. intros H. simp combine_function_calls. rewrite H. reflexivity. Qed.

(** Only an identifier opens a composite token. *)
Lemma combine_not_identifier token rest :
  (type token =? "IDENTIFIER")%string = false ->
  combine_function_calls (token :: rest)
  = token :: combine_function_calls rest.
Proof.
  intros H. destruct rest as [|next rest].
  - simp combine_function_calls. reflexivity.
  - apply combine_one_or_skip. unfold is_call_start. rewrite H. reflexivity.
Qed.

(** The first token of the output is the first token of the input or a
    composite token. *)
Lemma combine_head next rest :
  exists h tl, combine_function_calls (next :: rest) = h :: tl /\
               (h = next \/ type h = "FUNCTION_CALL").
Proof.
  destruct rest as [|n2 rest].
  - exists next, []. simp combine_function_calls. auto.
  - destruct (is_call_start next n2) eqn:E.
    + rewrite (combine_merge _ _ _ E). eexists _, _. split; [reflexivity|].
      right. reflexivity.
    + rewrite (combine_one_or_skip _ _ _ E). eexists _, _.
      split; [reflexivity|]. left. reflexivity.
Qed.

Lemma call_free_cons token next rest :
  call_free (token :: next :: rest)
  = negb (is_call_start token next) && call_free (next :: rest).
Proof. reflexivity. Qed.

Lemma combine_call_free tokens : call_free (combine_function_calls tokens) = true.
Proof.
  funelim (combine_function_calls tokens); simp combine_function_calls.
  - reflexivity.
  - reflexivity.
  - destruct (combine_function_calls _) as [|h tl] eqn:E; [reflexivity|].
    rewrite call_free_cons, H, andb_true_r. reflexivity.
  - destruct (combine_head next rest) as [h [tl [E Hh]]].
    rewrite E in *. rewrite call_free_cons, H, andb_true_r.
    destruct Hh as [-> | Hh]; [rewrite Heq; reflexivity|].
    unfold is_call_start. rewrite Hh. simpl. rewrite andb_false_r. reflexivity.
Qed.

Lemma combine_of_call_free : forall tokens,
  call_free tokens = true -> combine_function_calls tokens = tokens.
Proof.
  intros tokens. funelim (combine_function_calls tokens);
    simp combine_function_calls; intros Hfree; try reflexivity.
  - rewrite call_free_cons, Heq in Hfree. discriminate.
  - rewrite call_free_cons, Heq in Hfree. simpl negb in Hfree.
    rewrite andb_true_l in Hfree. rewrite (H Hfree). reflexivity.
Qed.

(** C8. The call merger is idempotent: on every token list, a second pass
    over the output of the first returns it unchanged; and no identifier
    directly followed by the symbol [(] is left after one pass. *)
Theorem combine_function_calls_idempotent (tokens : list Token) :
  combine_function_calls (combine_function_calls tokens)
  = combine_function_calls tokens
  /\ call_free (combine_function_calls tokens) = true.
Proof.
  split; [apply combine_of_call_free|]; apply combine_call_free.
Qed.

(** The composite lexeme is the concatenation of the lexemes consumed: the
    inner loop only moves lexemes from the input to [call_tokens]. *)
Lemma collect_call_concat tokens : forall paren_count call_tokens,
  fst (collect_call tokens paren_count call_tokens)
    ++ map value (snd (collect_call tokens paren_count call_tokens))
  = call_tokens ++ map value tokens.
Proof.
  induction tokens as [|t ts IH]; intros p acc; simpl; [reflexivity|].
  destruct (0 <? p); [|reflexivity].
  destruct (value t =? "(")%string;
    [|destruct (value t =? ")")%string];
    rewrite IH, <- app_assoc; reflexivity.
Qed.

(** ** Adjacent identifier and parenthesis anywhere in the token list *)

Lemma collect_call_prefix tokens : forall paren_count call_tokens,
  exists ys, fst (collect_call tokens paren_count call_tokens) = call_tokens ++ ys.
Proof.
  induction tokens as [|t ts IH]; intros p acc; simpl.
  - exists []. rewrite app_nil_r. reflexivity.
  - destruct (0 <? p); [|exists []; rewrite app_nil_r; reflexivity].
    assert (H : forall q, exists ys,
              fst (collect_call ts q (acc ++ [value t])) = acc ++ ys).
    { intros q. destruct (IH q (acc ++ [value t])) as [ys Hys].
      exists (value t :: ys). rewrite Hys, <- app_assoc. reflexivity. }
    destruct (value t =? "(")%string; [apply H|].
    destruct (value t =? ")")%string; apply H.
Qed.

Lemma collect_call_cons t ts paren_count call_tokens :
  collect_call (t :: ts) paren_count call_tokens
  = if 0 <? paren_count then
      if (value t =? "(")%string then
        collect_call ts (paren_count + 1) (call_tokens ++ [value t])
      else if (value t =? ")")%string then
        collect_call ts (paren_count - 1) (call_tokens ++ [value t])
      else collect_call ts paren_count (call_tokens ++ [value t])
    else (call_tokens, t :: ts).
Proof. reflexivity. Qed.

(** The inner loop, started before an identifier directly followed by [(],
    either stops before the identifier or takes both lexemes, one after the
    other. *)
Lemma collect_call_through id lp post :
  value id <> ")" -> value lp = "(" ->
  forall pre paren_count call_tokens,
    (exists pre2,
       snd (collect_call (pre ++ id :: lp :: post) paren_count call_tokens)
       = pre2 ++ id :: lp :: post /\ length pre2 <= length pre)
    \/ (exists xs ys,
          fst (collect_call (pre ++ id :: lp :: post) paren_count call_tokens)
          = xs ++ value id :: value lp :: ys).
Proof.
  intros Hid Hlp. induction pre as [|t pre IH]; intros p acc.
  - cbn [app]. rewrite collect_call_cons. destruct (0 <? p) eqn:Ep.
    + right. apply Nat.ltb_lt in Ep.
      assert (Hno : (value id =? ")")%string = false)
        by (apply String.eqb_neq; exact Hid).
      assert (Hnext : forall q, 0 < q -> exists ys,
                fst (collect_call (lp :: post) q (acc ++ [value id]))
                = acc ++ value id :: value lp :: ys).
      { intros q Hq. rewrite collect_call_cons. apply Nat.ltb_lt in Hq.
        rewrite Hq, Hlp. cbn [String.eqb Ascii.eqb Bool.eqb].
        destruct (collect_call_prefix post (q + 1)
                    ((acc ++ [value id]) ++ ["("])) as [ys Hys].
        exists ys. rewrite Hys, <- !app_assoc. reflexivity. }
      exists acc. rewrite Hno.
      destruct (value id =? "(")%string; apply Hnext; lia.
    + left. exists []. split; [reflexivity | simpl; lia].
  - cbn [app]. rewrite collect_call_cons. destruct (0 <? p).
    + assert (H : forall q,
        (exists pre2,
           snd (collect_call (pre ++ id :: lp :: post) q (acc ++ [value t]))
           = pre2 ++ id :: lp :: post /\ length pre2 <= length (t :: pre))
        \/ (exists xs ys,
              fst (collect_call (pre ++ id :: lp :: post) q (acc ++ [value t]))
              = xs ++ value id :: value lp :: ys)).
      { intros q. destruct (IH q (acc ++ [value t])) as [[pre2 [H1 H2]]|H].
        - left. exists pre2. split; [exact H1 | simpl; lia].
        - right. exact H. }
      destruct (value t =? "(")%string; [apply H|].
      destruct (value t =? ")")%string; apply H.
    + left. exists (t :: pre). split; [reflexivity | lia].
Qed.

(** Wherever an identifier is directly followed by the symbol [(] in the
    input of the merger, both lexemes end up next to each other inside one
    composite token of the output. *)
Lemma combine_folds_adjacent id lp post :
  is_call_start id lp = true -> value id <> ")" ->
  forall pre, exists c xs ys,
    In c (combine_function_calls (pre ++ id :: lp :: post)) /\
    type c = "FUNCTION_CALL" /\
    value c = join EmptyString (xs ++ value id :: value lp :: ys).
Proof.
  intros Hcall Hid.
  assert (Hlp : value lp = "(").
  { unfold is_call_start in Hcall. apply andb_true_iff in Hcall.
    apply String.eqb_eq, Hcall. }
  assert (Hty : (type id =? "SYMBOL")%string = false).
  { unfold is_call_start in Hcall. apply andb_true_iff in Hcall.
    destruct Hcall as [Hcall _]. apply andb_true_iff in Hcall.
    destruct Hcall as [Hcall _]. apply String.eqb_eq in Hcall.
    rewrite Hcall. reflexivity. }
  intros pre. remember (length pre) as n eqn:Hn.
  assert (Hle : length pre <= n) by lia. clear Hn. revert pre Hle.
  induction n as [|n IH]; intros pre Hle.
  - destruct pre; [|simpl in Hle; lia]. cbn [app].
    rewrite (combine_merge _ _ _ Hcall).
    destruct (collect_call_prefix post 1 [value id; value lp]) as [ys Hys].
    eexists _, [], ys. split; [left; reflexivity|]. split; [reflexivity|].
    cbn [call_token value]. rewrite Hys. reflexivity.
  - destruct pre as [|t [|next pre]].
    + apply (IH []). simpl. lia.
    + cbn [app]. rewrite combine_one_or_skip.
      * destruct (IH [] ltac:(simpl; lia)) as [c [xs [ys [Hin H]]]].
        exists c, xs, ys. split; [right; exact Hin | exact H].
      * unfold is_call_start. rewrite Hty, andb_false_r. reflexivity.
    + cbn [app]. destruct (is_call_start t next) eqn:E.
      * rewrite (combine_merge _ _ _ E).
        destruct (collect_call_through id lp post Hid Hlp pre 1
                    [value t; value next]) as [[pre2 [H1 H2]]|[xs [ys H]]].
        -- rewrite H1.
           destruct (IH pre2 ltac:(simpl in Hle; lia)) as [c [xs [ys [Hin H]]]].
           exists c, xs, ys. split; [right; exact Hin | exact H].
        -- eexists _, xs, ys. split; [left; reflexivity|].
           split; [reflexivity|]. cbn [call_token value]. rewrite H. reflexivity.
      * rewrite (combine_one_or_skip _ _ _ E).
        destruct (IH (next :: pre) ltac:(simpl in *; lia)) as [c [xs [ys [Hin H]]]].
        exists c, xs, ys. split; [right; exact Hin | exact H].
Qed.

(** ** What a match can start with *)

Lemma char_at_weaken (p q : ascii -> bool) code i :
  (forall c, p c = true -> q c = true) ->
  char_at p code i = true -> char_at q code i = true.
Proof. unfold char_at. destruct (get i code); auto. Qed.

Lemma star_greedy_ge step fuel :
  (forall i e, In e (step i) -> i <= e) ->
  forall i e, In e (star_greedy step fuel i) -> i <= e.
Proof. apply star_greedy_path; intros; lia. Qed.

Lemma star_lazy_ge step fuel :
  (forall i e, In e (step i) -> i <= e) ->
  forall i e, In e (star_lazy step fuel i) -> i <= e.
Proof. apply star_lazy_path; intros; lia. Qed.

Lemma ends_first r code i : forall e,
  In e (ends r code i) ->
  (e = i /\ nullable (at_bol code i) r = true) \/
  (i < e /\ char_at (first (at_bol code i) r) code i = true).
Proof.
  induction r as [| |p|r1 IH1 r2 IH2|r1 IH1 r2 IH2|r1 IH1|r1 IH1| | |];
    intros e He; cbn [ends nullable first] in *.
  - contradiction.
  - destruct He as [<-|[]]. left. auto.
  - destruct (char_at p code i) eqn:E; [|contradiction].
    destruct He as [<-|[]]. right. split; [lia | reflexivity].
  - apply in_flat_map in He. destruct He as [j [Hj He]].
    pose proof (ends_bounds _ _ _ _ He) as [Hje _].
    destruct (IH1 _ Hj) as [[-> Hn1]|[Hlt Hc]].
    + destruct (IH2 _ He) as [[-> Hn2]|[Hlt Hc]].
      * left. rewrite Hn1, Hn2. auto.
      * right. split; [exact Hlt|].
        eapply char_at_weaken; [|exact Hc].
        intros c Hcc. rewrite Hn1, Hcc. apply orb_true_r.
    + right. split; [lia|].
      eapply char_at_weaken; [|exact Hc]. intros c ->. reflexivity.
  - apply in_app_iff in He. destruct He as [He|He].
    + destruct (IH1 _ He) as [[-> Hn]|[Hlt Hc]].
      * left. rewrite Hn. auto.
      * right. split; [exact Hlt|].
        eapply char_at_weaken; [|exact Hc]. intros c ->. reflexivity.
    + destruct (IH2 _ He) as [[-> Hn]|[Hlt Hc]].
      * left. rewrite Hn, orb_true_r. auto.
      * right. split; [exact Hlt|].
        eapply char_at_weaken; [|exact Hc]. intros c ->. apply orb_true_r.
  - rewrite star_greedy_S in He. apply in_app_iff in He.
    destruct He as [He|[<-|[]]]; [|left; auto].
    apply in_flat_map_if in He. destruct He as [j [Hj [Hij He]]].
    apply Nat.ltb_lt in Hij.
    apply star_greedy_ge in He; [|intros a b Hab; apply ends_bounds in Hab; lia].
    right. split; [lia|].
    destruct (IH1 _ Hj) as [[-> _]|[_ Hc]]; [lia | exact Hc].
  - rewrite star_lazy_S in He.
    destruct He as [<-|He]; [left; auto|].
    apply in_flat_map_if in He. destruct He as [j [Hj [Hij He]]].
    apply Nat.ltb_lt in Hij.
    apply star_lazy_ge in He; [|intros a b Hab; apply ends_bounds in Hab; lia].
    right. split; [lia|].
    destruct (IH1 _ Hj) as [[-> _]|[_ Hc]]; [lia | exact Hc].
  - destruct (at_bol code i); [|contradiction].
    destruct He as [<-|[]]. left. auto.
  - destruct (at_eol code i); [|contradiction].
    destruct He as [<-|[]]. left. auto.
  - destruct (at_word_boundary code i); [|contradiction].
    destruct He as [<-|[]]. left. auto.
Qed.

(** A pattern that cannot match the empty string does not match where the
    next character is none of those it can start with. *)
Lemma no_match_at r code i :
  1 <= min_width r ->
  char_at (first (at_bol code i) r) code i = false ->
  match_at r code i = None.
Proof.
  intros Hw Hc. unfold match_at.
  destruct (ends r code i) as [|e l] eqn:E; [reflexivity|].
  assert (He : In e (ends r code i)) by (rewrite E; left; reflexivity).
  pose proof (ends_min_width _ _ _ _ He).
  destruct (ends_first _ _ _ _ He) as [[-> _]|[_ Hc']]; [lia | congruence].
Qed.

Lemma master_at_app pats1 pats2 code i :
  (forall nr, In nr pats1 -> match_at (snd nr) code i = None) ->
  master_at (pats1 ++ pats2) code i = master_at pats2 code i.
Proof.
  induction pats1 as [|[n r] pats1 IH]; intros H; [reflexivity|].
  cbn [app master_at]. pose proof (H (n, r) (or_introl eq_refl)) as Hr.
  cbn [snd] in Hr. rewrite Hr.
  apply IH. intros nr Hnr. apply H. right. exact Hnr.
Qed.

(** Priority by table order: when the master pattern reports an
    alternative, no alternative declared before it matches at that offset. *)
Lemma master_at_earlier_fail pats1 pats2 code i m :
  master_at (pats1 ++ pats2) code i = Some m ->
  forallb (fun nr => negb (fst nr =? lastgroup m)%string) pats1 = true ->
  forall nr, In nr pats1 -> match_at (snd nr) code i = None.
Proof.
  induction pats1 as [|[n r] pats1 IH]; intros Hm Hnames nr Hin;
    [contradiction|].
  cbn [app master_at] in Hm. cbn [forallb fst] in Hnames.
  apply andb_true_iff in Hnames. destruct Hnames as [Hn Hnames].
  destruct (match_at r code i) as [e|] eqn:E.
  - injection Hm as <-. cbn [lastgroup] in Hn.
    rewrite String.eqb_refl in Hn. discriminate.
  - destruct Hin as [<-|Hin]; [exact E|]. apply IH; assumption.
Qed.

Lemma ends_Cls p code i :
  ends (Cls p) code i = if char_at p code i then [S i] else [].
Proof. reflexivity. Qed.

(** The greedy star of a class takes the whole run of the class. *)
Lemma star_class_run P code : forall n i,
  (forall k, i <= k < i + n -> char_at P code k = true) ->
  char_at P code (i + n) = false ->
  hd_error (ends (Star (Cls P)) code i) = Some (i + n).
Proof.
  induction n as [|n IH]; intros i Hrun Hstop; rewrite ends_Star, ends_Cls.
  - rewrite Nat.add_0_r in *. rewrite Hstop. reflexivity.
  - rewrite (Hrun i) by lia. cbn [flat_map].
    assert (Hlt : (i <? S i) = true) by (apply Nat.ltb_lt; lia).
    rewrite Hlt, app_nil_r.
    assert (H : hd_error (ends (Star (Cls P)) code (S i)) = Some (S i + n)).
    { apply IH; [intros; apply Hrun; lia|].
      replace (S i + n) with (i + S n) by lia. exact Hstop. }
    destruct (ends (Star (Cls P)) code (S i)) as [|x l]; [discriminate|].
    cbn [app hd_error] in *. rewrite H. f_equal. lia.
Qed.

Lemma plus_class_run P code i n :
  0 < n ->
  (forall k, i <= k < i + n -> char_at P code k = true) ->
  char_at P code (i + n) = false ->
  match_at (Plus (Cls P)) code i = Some (i + n).
Proof.
  intros Hn Hrun Hstop. unfold match_at, Plus.
  change (ends (Seq (Cls P) (Star (Cls P))) code i)
    with (flat_map (ends (Star (Cls P)) code) (ends (Cls P) code i)).
  rewrite ends_Cls, (Hrun i) by lia. cbn [flat_map]. rewrite app_nil_r.
  destruct n as [|n]; [lia|].
  replace (i + S n) with (S i + n) in * by lia.
  apply star_class_run; [intros; apply Hrun; lia | exact Hstop].
Qed.

(** ** An identifier, white space, an open parenthesis *)

Lemma char_at_get p code i :
  char_at p code i = true -> exists c, get i code = Some c /\ p c = true.
Proof.
  unfold char_at. destruct (get i code) as [c|]; [eauto | discriminate].
Qed.

(** None of the twenty alternatives before WHITESPACE can start with a
    white-space character, away from the start of a line. *)
Lemma space_starts_nothing_else c :
  is_space c = true ->
  forallb (fun nr => negb (first false (snd nr) c)) (firstn 20 patterns) = true.
Proof.
  destruct c as [[] [] [] [] [] [] [] []]; vm_compute;
    intros H; try reflexivity; discriminate H.
Qed.

(** None of the seventeen alternatives before SYMBOL can start with an open
    parenthesis. *)
Lemma paren_starts_nothing_else :
  forallb (fun nr => negb (first true (snd nr) "(") &&
                     negb (first false (snd nr) "("))
          (firstn 17 patterns) = true.
Proof. vm_compute. reflexivity. Qed.

Lemma In_firstn_patterns n nr :
  In nr (firstn n patterns) -> 1 <= min_width (snd nr).
Proof.
  intros H. pose proof patterns_not_nullable as Hn.
  rewrite Forall_forall in Hn. apply Hn.
  rewrite <- (firstn_skipn n patterns). apply in_or_app. left. exact H.
Qed.

(** After a word character, a run of white space is one WHITESPACE match. *)
Lemma whitespace_match code e n :
  0 < n -> at_bol code e = false ->
  (forall k, e <= k < e + n -> char_at is_space code k = true) ->
  char_at is_space code (e + n) = false ->
  master_at patterns code e = Some (mkMatch "WHITESPACE" e (e + n)).
Proof.
  intros Hn Hbol Hrun Hstop.
  change patterns with (firstn 20 patterns ++ [("WHITESPACE", WHITESPACE)]).
  rewrite master_at_app.
  - cbn [master_at]. unfold WHITESPACE.
    rewrite (plus_class_run is_space code e n Hn Hrun Hstop). reflexivity.
  - intros nr Hnr. apply no_match_at; [eapply In_firstn_patterns, Hnr|].
    rewrite Hbol. destruct (char_at_get _ _ _ (Hrun e ltac:(lia))) as [c [Hc Hs]].
    unfold char_at. rewrite Hc.
    pose proof (space_starts_nothing_else c Hs) as H.
    rewrite forallb_forall in H. apply H in Hnr.
    apply negb_true_iff in Hnr. exact Hnr.
Qed.

(** An open parenthesis is one SYMBOL match. *)
Lemma paren_match code p :
  char_at (is_char "(") code p = true ->
  master_at patterns code p = Some (mkMatch "SYMBOL" p (S p)).
Proof.
  intros Hp. destruct (char_at_get _ _ _ Hp) as [c [Hc Hpc]].
  apply Ascii.eqb_eq in Hpc. subst c.
  change patterns
    with (firstn 17 patterns ++ ("SYMBOL", SYMBOL) :: skipn 18 patterns).
  rewrite master_at_app.
  - cbn [master_at]. unfold match_at, SYMBOL. rewrite ends_Cls.
    unfold char_at. rewrite Hc. reflexivity.
  - intros nr Hnr. apply no_match_at; [eapply In_firstn_patterns, Hnr|].
    pose proof paren_starts_nothing_else as H.
    rewrite forallb_forall in H. apply H in Hnr.
    apply andb_true_iff in Hnr. destruct Hnr as [H1 H2].
    apply negb_true_iff in H1, H2.
    unfold char_at. rewrite Hc. destruct (at_bol code p); assumption.
Qed.

Lemma finditer_from_step code f pos m :
  S (String.length code) - pos <= f -> pos <= String.length code ->
  master_at patterns code pos = Some m ->
  exists f', S (String.length code) - m_end m <= f' /\
             finditer_from f code pos = m :: finditer_from f' code (m_end m).
Proof.
  intros Hf Hpos Hm. destruct f as [|f]; [lia|].
  cbn [finditer_from]. apply Nat.ltb_ge in Hpos. rewrite Hpos, Hm.
  apply Nat.ltb_ge in Hpos.
  pose proof (master_at_span _ _ _ Hm) as [_ [Hlt Hle]].
  pose proof Hlt as Hlt'. apply Nat.ltb_lt in Hlt'. rewrite Hlt'.
  exists f. split; [lia | reflexivity].
Qed.

(** The scan resumes at the end of each match it reports. *)
Lemma finditer_from_In_split code m : forall f pos,
  S (String.length code) - pos <= f ->
  In m (finditer_from f code pos) ->
  exists l1 f', S (String.length code) - m_end m <= f' /\
    finditer_from f code pos = l1 ++ m :: finditer_from f' code (m_end m).
Proof.
  induction f as [|f IH]; intros pos Hf Hin; [contradiction|].
  cbn [finditer_from] in *.
  destruct (String.length code <? pos) eqn:E; [contradiction|].
  apply Nat.ltb_ge in E.
  destruct (master_at patterns code pos) as [m0|] eqn:Em.
  - pose proof (master_at_span _ _ _ Em) as [_ [Hlt Hle]].
    pose proof Hlt as Hlt'. apply Nat.ltb_lt in Hlt'. rewrite Hlt' in *.
    destruct Hin as [->|Hin].
    + exists [], f. split; [lia | reflexivity].
    + destruct (IH (m_end m0) ltac:(lia) Hin) as [l1 [f' [Hf' Heq]]].
      exists (m0 :: l1), f'. split; [exact Hf'|]. rewrite Heq. reflexivity.
  - destruct (IH (S pos) ltac:(lia) Hin) as [l1 [f' [Hf' Heq]]].
    exists l1, f'. split; assumption.
Qed.

Lemma slice_one code p c :
  get p code = Some c -> slice code p (S p) = String c EmptyString.
Proof.
  unfold slice. replace (S p - p) with 1 by lia.
  revert p. induction code as [|a s IH]; intros [|p]; simpl; try discriminate.
  - intros [= ->]. destruct s; reflexivity.
  - apply IH.
Qed.

Lemma word_not_newline code k :
  char_at is_word code k = true -> char_at (is_char newline) code k = false.
Proof.
  intros H. destruct (char_at_get _ _ _ H) as [c [Hc Hw]].
  unfold char_at. rewrite Hc.
  destruct (is_char newline c) eqn:E; [|reflexivity].
  apply Ascii.eqb_eq in E. subst c. discriminate Hw.
Qed.

Lemma identifier_match code i e :
  In (mkMatch "IDENTIFIER" i e) (finditer code) ->
  match_at IDENTIFIER code i = Some e /\ i < e <= String.length code.
Proof.
  intros Hin.
  destruct (scanned_In _ _ _ _ (finditer_scanned code) Hin) as [_ Hm].
  cbn [m_start] in Hm. pose proof (master_at_span _ _ _ Hm) as [_ Hspan].
  apply master_at_sound in Hm. destruct Hm as [r [Hr [_ Hm]]].
  cbn [lastgroup m_end] in *. apply patterns_IDENTIFIER in Hr. subst r.
  split; assumption.
Qed.

(** For every source text: an identifier match, then white space only (or
    nothing), then an open parenthesis, give two raw tokens next to each
    other. *)
Lemma identifier_then_paren_tokens code filename i e p :
  In (mkMatch "IDENTIFIER" i e) (finditer code) ->
  e <= p ->
  (forall k, e <= k < p -> char_at is_space code k = true) ->
  char_at (is_char "(") code p = true ->
  exists pre post,
    map (token_of code filename) (kept (finditer code))
    = pre ++ token_of code filename (mkMatch "IDENTIFIER" i e)
          :: token_of code filename (mkMatch "SYMBOL" p (S p)) :: post.
Proof.
  intros Hin Hep Hws Hp.
  destruct (identifier_match _ _ _ Hin) as [Hid [Hie Hlen]].
  pose proof (char_at_lt _ _ _ Hp) as Hplen.
  destruct (finditer_from_In_split code _ (S (String.length code)) 0
              ltac:(lia) Hin) as [l1 [f1 [Hf1 Hsplit]]].
  cbn [m_end] in *.
  assert (Hrest : exists f2,
            finditer_from f1 code e = mkMatch "SYMBOL" p (S p)
                                      :: finditer_from f2 code (S p) \/
            finditer_from f1 code e = mkMatch "WHITESPACE" e p
                                      :: mkMatch "SYMBOL" p (S p)
                                      :: finditer_from f2 code (S p)).
  { apply Nat.lt_eq_cases in Hep. destruct Hep as [Hlt|<-].
    - assert (Hbol : at_bol code e = false).
      { destruct e as [|e']; [lia|]. cbn [at_bol]. apply word_not_newline.
        apply match_at_In in Hid.
        apply (ends_chars is_word _ _ _ _ IDENTIFIER_consumes_words Hid). lia. }
      assert (Hstop : char_at is_space code (e + (p - e)) = false).
      { replace (e + (p - e)) with p by lia.
        destruct (char_at_get _ _ _ Hp) as [c [Hc Hpc]].
        apply Ascii.eqb_eq in Hpc. subst c. unfold char_at. rewrite Hc.
        reflexivity. }
      pose proof (whitespace_match code e (p - e) ltac:(lia) Hbol
                    ltac:(intros; apply Hws; lia) Hstop) as Hm.
      replace (e + (p - e)) with p in Hm by lia.
      destruct (finditer_from_step _ _ _ _ Hf1 ltac:(lia) Hm) as [f2 [Hf2 E2]].
      cbn [m_end] in *.
      destruct (finditer_from_step _ _ _ _ Hf2 ltac:(lia) (paren_match _ _ Hp))
        as [f3 [Hf3 E3]].
      cbn [m_end] in *. exists f3. right. rewrite E2, E3. reflexivity.
    - destruct (finditer_from_step _ _ _ _ Hf1 ltac:(lia) (paren_match _ _ Hp))
        as [f2 [Hf2 E2]].
      cbn [m_end] in *. exists f2. left. exact E2. }
  destruct Hrest as [f2 Hrest]. unfold finditer. rewrite Hsplit.
  exists (map (token_of code filename) (kept l1)),
         (map (token_of code filename) (kept (finditer_from f2 code (S p)))).
  unfold kept. rewrite filter_app, map_app. f_equal.
  destruct Hrest as [-> | ->]; reflexivity.
Qed.

Lemma identifier_lexeme_not_paren code i e :
  In (mkMatch "IDENTIFIER" i e) (finditer code) -> slice code i e <> ")".
Proof.
  intros Hin Heq. destruct (identifier_match _ _ _ Hin) as [Hid _].
  assert (Hget : get 0 (slice code i e) = Some ")"%char)
    by (rewrite Heq; reflexivity).
  apply (identifier_lexeme_words _ _ _ _ _ Hid) in Hget. discriminate.
Qed.

(** For every source text: an identifier followed, after white space only
    or directly, by an open parenthesis ends up with that parenthesis inside
    one composite token of the result of [tokenize]. *)
Lemma identifier_then_paren_merged allowed restricted tracker code filename i e p :
  In (mkMatch "IDENTIFIER" i e) (finditer code) ->
  e <= p ->
  (forall k, e <= k < p -> char_at is_space code k = true) ->
  char_at (is_char "(") code p = true ->
  exists c xs ys,
    In c (fst (tokenize_under allowed restricted tracker code filename)) /\
    type c = "FUNCTION_CALL" /\
    value c = join EmptyString (xs ++ slice code i e :: "(" :: ys).
Proof.
  intros Hin Hep Hws Hp.
  destruct (identifier_then_paren_tokens code filename _ _ _ Hin Hep Hws Hp)
    as [pre [post Hraw]].
  destruct (char_at_get _ _ _ Hp) as [c [Hc Hpc]].
  apply Ascii.eqb_eq in Hpc. subst c.
  set (id := token_of code filename (mkMatch "IDENTIFIER" i e)) in *.
  set (lp := token_of code filename (mkMatch "SYMBOL" p (S p))) in *.
  assert (Hlp : value lp = "(") by (apply slice_one, Hc).
  assert (Hcall : is_call_start id lp = true).
  { unfold is_call_start. rewrite Hlp. reflexivity. }
  destruct (combine_folds_adjacent id lp post Hcall
              (identifier_lexeme_not_paren _ _ _ Hin) pre)
    as [c [xs [ys [Hc1 [Hc2 Hc3]]]]].
  exists c, xs, ys. rewrite Hlp in Hc3. split; [|split; assumption].
  unfold tokenize_under.
  pose proof (scan_tokens allowed restricted tracker code filename) as Hs.
  destruct (scan_under allowed restricted tracker code filename) as [tokens tr].
  cbn [fst] in *. rewrite Hs, Hraw. exact Hc1.
Qed.

(** When the inner loop runs to the end of the stream, the composite token
    is the only token emitted from the identifier on, and its lexeme is the
    concatenation of all lexemes from the identifier to the end. *)
Lemma combine_unbalanced token next rest :
  is_call_start token next = true ->
  snd (collect_call rest 1 [value token; value next]) = [] ->
  combine_function_calls (token :: next :: rest)
  = [call_token token (value token :: value next :: map value rest)].
Proof.
  intros Hcall Hend. rewrite (combine_merge _ _ _ Hcall), Hend.
  pose proof (collect_call_concat rest 1 [value token; value next]) as H.
  rewrite Hend, app_nil_r in H. rewrite H.
  simp combine_function_calls. reflexivity.
Qed.

(** * The examples of the specification *)

(** C1. The source text [#include <cmath>] is scanned as one
    STANDARD_LIBRARY match, which the PREPROCESSOR pattern could not have
    matched; the include check of [find_problems] tests for type
    PREPROCESSOR, so under every policy, the one allowing exactly [iostream]
    included, the tracker is left as it was: no problem is produced. *)
Theorem include_cmath_no_problem :
  finditer "#include <cmath>" = [mkMatch "STANDARD_LIBRARY" 0 16]
  /\ match_at PREPROCESSOR "#include <cmath>" 0 = None
  /\ (forall allowed restricted tracker filename,
        tokenize_under allowed restricted tracker "#include <cmath>" filename
        = ([mkToken "STANDARD_LIBRARY" "#include <cmath>" 1 1 filename],
           tracker))
  /\ (forall tracker filename,
        snd (tokenize_under ["iostream"] restricted_funcs tracker
                            "#include <cmath>" filename) = tracker).
Proof. repeat split; vm_compute; reflexivity. Qed.

(** C2. The source text [std::sort(v.begin(), v.end())] yields no token of
    type NAMESPACE and no problem: the NAMESPACE pattern would match
    [std::sort] at offset 0, but IDENTIFIER comes before it in the table and
    matches [std]; so [std], [::] and [sort] are three tokens, the check for
    [std::] never sees a qualified name, and [sort] with its parentheses is
    merged into a composite token. *)
Theorem std_sort_split_and_merged :
  match_at NAMESPACE "std::sort(v.begin(), v.end())" 0 = Some 9
  /\ master_at patterns "std::sort(v.begin(), v.end())" 0
     = Some (mkMatch "IDENTIFIER" 0 3)
  /\ (forall allowed restricted tracker filename,
        tokenize_under allowed restricted tracker
                       "std::sort(v.begin(), v.end())" filename
        = ([mkToken "IDENTIFIER" "std" 1 1 filename;
            mkToken "OPERATOR_2CHAR" "::" 1 4 filename;
            mkToken "FUNCTION_CALL" "sort(v.begin(),v.end())" 1 6 filename],
           tracker)).
Proof. repeat split; vm_compute; reflexivity. Qed.

(** C5. In [0x1F + 0b101 + 3.14 + 077 + 42] the five numbers are one token
    each, of types HEX_NUMBER, BINARY_NUMBER, FLOAT_NUMBER, OCTAL_NUMBER and
    INT_NUMBER in this order.  More generally, wherever the scanner reports
    a plain integer, none of the four patterns declared before INT_NUMBER
    matches at that offset. *)
Theorem numeric_disambiguation :
  (forall tracker filename,
     tokenize tracker "0x1F + 0b101 + 3.14 + 077 + 42" filename
     = ([mkToken "HEX_NUMBER" "0x1F" 1 1 filename;
         mkToken "OPERATOR_1CHAR" "+" 1 6 filename;
         mkToken "BINARY_NUMBER" "0b101" 1 8 filename;
         mkToken "OPERATOR_1CHAR" "+" 1 14 filename;
         mkToken "FLOAT_NUMBER" "3.14" 1 16 filename;
         mkToken "OPERATOR_1CHAR" "+" 1 21 filename;
         mkToken "OCTAL_NUMBER" "077" 1 23 filename;
         mkToken "OPERATOR_1CHAR" "+" 1 27 filename;
         mkToken "INT_NUMBER" "42" 1 29 filename],
        tracker))
  /\ (forall code i m,
        master_at patterns code i = Some m ->
        lastgroup m = "INT_NUMBER" ->
        match_at HEX_NUMBER code i = None /\
        match_at BINARY_NUMBER code i = None /\
        match_at FLOAT_NUMBER code i = None /\
        match_at OCTAL_NUMBER code i = None).
Proof.
  split; [intros; vm_compute; reflexivity|].
  intros code i m Hm Hname.
  change patterns with (firstn 10 patterns ++ skipn 10 patterns) in Hm.
  pose proof (master_at_earlier_fail _ _ _ _ _ Hm) as H.
  rewrite Hname in H. specialize (H eq_refl).
  repeat split.
  - apply (H ("HEX_NUMBER", HEX_NUMBER)). simpl. tauto.
  - apply (H ("BINARY_NUMBER", BINARY_NUMBER)). simpl. tauto.
  - apply (H ("FLOAT_NUMBER", FLOAT_NUMBER)). simpl. tauto.
  - apply (H ("OCTAL_NUMBER", OCTAL_NUMBER)). simpl. tauto.
Qed.

Lemma numeric_disambiguation_witness :
  match_at HEX_NUMBER "42" 0 = None /\
  match_at BINARY_NUMBER "42" 0 = None /\
  match_at FLOAT_NUMBER "42" 0 = None /\
  match_at OCTAL_NUMBER "42" 0 = None.
Proof.
  apply (proj2 numeric_disambiguation "42" 0 (mkMatch "INT_NUMBER" 0 2));
    reflexivity.
Defined.

(** C6. In [a++b] the two plus signs are one OPERATOR_2CHAR token [++]; no
    token of the stream is a single [+].  More generally, wherever the
    scanner reports a one-character operator, no two-character operator
    matches at that offset: OPERATOR_2CHAR is declared first and wins. *)
Theorem increment_is_one_token :
  (forall tracker filename,
     tokenize tracker "a++b" filename
     = ([mkToken "IDENTIFIER" "a" 1 1 filename;
         mkToken "OPERATOR_2CHAR" "++" 1 2 filename;
         mkToken "IDENTIFIER" "b" 1 4 filename],
        tracker)
     /\ existsb (fun t => (value t =? "+")%string)
                (fst (tokenize tracker "a++b" filename)) = false)
  /\ (forall code i m,
        master_at patterns code i = Some m ->
        lastgroup m = "OPERATOR_1CHAR" ->
        match_at OPERATOR_2CHAR code i = None).
Proof.
  split; [intros; split; vm_compute; reflexivity|].
  intros code i m Hm Hname.
  change patterns with (firstn 16 patterns ++ skipn 16 patterns) in Hm.
  pose proof (master_at_earlier_fail _ _ _ _ _ Hm) as H.
  rewrite Hname in H. specialize (H eq_refl).
  apply (H ("OPERATOR_2CHAR", OPERATOR_2CHAR)). simpl. tauto.
Qed.

Lemma increment_is_one_token_witness :
  match_at OPERATOR_2CHAR "a+b" 1 = None.
Proof.
  apply (proj2 increment_is_one_token "a+b" 1 (mkMatch "OPERATOR_1CHAR" 1 2));
    reflexivity.
Defined.

(** C7. The merger is a total function: it returns a token list on every
    input.  Whenever its inner loop runs to the end of the stream, the
    composite token is the only token emitted from the identifier on, and
    its lexeme is the concatenation of all lexemes from the identifier to
    the end.  On the raw tokens of [foo(a, (b)], whose parentheses do not
    balance, it returns the one composite token [foo(a,(b)]. *)
Theorem unbalanced_call_is_merged :
  (forall token next rest,
     is_call_start token next = true ->
     snd (collect_call rest 1 [value token; value next]) = [] ->
     combine_function_calls (token :: next :: rest)
     = [mkToken "FUNCTION_CALL"
          (join EmptyString (map value (token :: next :: rest)))
          (line token) (column token) (filename token)])
  /\ (forall tracker filename,
        let raw := fst (scan tracker "foo(a, (b)" filename) in
        map value raw = ["foo"; "("; "a"; ","; "("; "b"; ")"]
        /\ combine_function_calls raw
           = [mkToken "FUNCTION_CALL" (join EmptyString (map value raw))
                      1 1 filename]
        /\ join EmptyString (map value raw) = "foo(a,(b)"
        /\ tokenize tracker "foo(a, (b)" filename
           = ([mkToken "FUNCTION_CALL" "foo(a,(b)" 1 1 filename], tracker)).
Proof.
  split.
  - intros token next rest Hcall Hend.
    rewrite (combine_unbalanced _ _ _ Hcall Hend). reflexivity.
  - intros. cbv zeta. repeat split; vm_compute; reflexivity.
Qed.

Lemma unbalanced_call_is_merged_witness :
  combine_function_calls
    [mkToken "IDENTIFIER" "foo" 1 1 "input.txt";
     mkToken "SYMBOL" "(" 1 4 "input.txt";
     mkToken "IDENTIFIER" "a" 1 5 "input.txt";
     mkToken "SYMBOL" "," 1 6 "input.txt";
     mkToken "SYMBOL" "(" 1 8 "input.txt";
     mkToken "IDENTIFIER" "b" 1 9 "input.txt";
     mkToken "SYMBOL" ")" 1 10 "input.txt"]
  = [mkToken "FUNCTION_CALL" "foo(a,(b)" 1 1 "input.txt"].
Proof.
  apply (proj1 unbalanced_call_is_merged
           (mkToken "IDENTIFIER" "foo" 1 1 "input.txt")
           (mkToken "SYMBOL" "(" 1 4 "input.txt")
           [mkToken "IDENTIFIER" "a" 1 5 "input.txt";
            mkToken "SYMBOL" "," 1 6 "input.txt";
            mkToken "SYMBOL" "(" 1 8 "input.txt";
            mkToken "IDENTIFIER" "b" 1 9 "input.txt";
            mkToken "SYMBOL" ")" 1 10 "input.txt"]);
    reflexivity.
Defined.

(** C4. The macro check does not see every directive that contains
    [define].  In [find_problems] the include check comes first and takes
    every PREPROCESSOR token whose text contains [include] anywhere, the
    macro check being its [elif].  So [#define include_guard 1] and
    [#define include_all(x) x], each one PREPROCESSOR token containing
    [define], give no problem at all, neither a constant macro nor a
    function-like macro; and [#define include_path <x.h>] is reported as an
    unauthorized library, not as a macro. *)
Theorem macro_check_shadowed_by_include_check :
  (forall tracker filename,
     tokenize tracker "#define include_guard 1" filename
     = ([mkToken "PREPROCESSOR" "#define include_guard 1" 1 1 filename],
        tracker))
  /\ (forall tracker filename,
        tokenize tracker "#define include_all(x) x" filename
        = ([mkToken "PREPROCESSOR" "#define include_all(x) x" 1 1 filename],
           tracker))
  /\ (forall tracker filename,
        exists solution,
          tokenize tracker "#define include_path <x.h>" filename
          = ([mkToken "PREPROCESSOR" "#define include_path <x.h>" 1 1
                      filename],
             tracker ++
             [mkProblem 1 "Unauthorized library: x.h" solution])).
Proof.
  split; [|split]; intros tracker filename.
  - vm_compute. reflexivity.
  - vm_compute. reflexivity.
  - eexists. vm_compute. reflexivity.
Qed.

(** Where the macro check is reached, it classifies as intended.  For every
    token of type PREPROCESSOR that the include check does not take (its
    text does not contain [include]) and whose text contains [define],
    [find_problems] adds exactly one problem, on the line of the token: a
    function-like macro if the text contains an open parenthesis, a
    constant macro otherwise.  In particular
    [#define MAX(a,b) ((a)>(b)?(a):(b))] is reported as a function-like
    macro and [#define LIMIT 100] as a constant macro. *)
Theorem macro_classification :
  (forall allowed restricted tracker token text,
     type token = "PREPROCESSOR" ->
     contains "include" text = false ->
     contains "define" text = true ->
     find_problems_under allowed restricted tracker token text
     = tracker ++
       [if contains "(" text
        then mkProblem (line token) ("Function-like macro: " ++ text)
                       "Use constexpr functions instead"
        else mkProblem (line token) ("Constant macro: " ++ text)
                       "Use constexpr variables instead"])
  /\ (forall tracker filename,
        tokenize tracker "#define MAX(a,b) ((a)>(b)?(a):(b))" filename
        = ([mkToken "PREPROCESSOR" "#define MAX(a,b) ((a)>(b)?(a):(b))"
                    1 1 filename],
           tracker ++
           [mkProblem 1 "Function-like macro: #define MAX(a,b) ((a)>(b)?(a):(b))"
                      "Use constexpr functions instead"]))
  /\ (forall tracker filename,
        tokenize tracker "#define LIMIT 100" filename
        = ([mkToken "PREPROCESSOR" "#define LIMIT 100" 1 1 filename],
           tracker ++
           [mkProblem 1 "Constant macro: #define LIMIT 100"
                      "Use constexpr variables instead"])).
Proof.
  split; [|split; intros; vm_compute; reflexivity].
  intros allowed restricted tracker token text Hty Hinc Hdef.
  unfold find_problems_under, add_problem. rewrite Hty, Hinc, Hdef. simpl.
  destruct (contains "(" text); reflexivity.
Qed.

Lemma macro_classification_witness :
  find_problems []
    (mkToken "PREPROCESSOR" "#define LIMIT 100" 1 1 "input.txt")
    "#define LIMIT 100"
  = [mkProblem 1 "Constant macro: #define LIMIT 100"
               "Use constexpr variables instead"].
Proof.
  apply (proj1 macro_classification allowed_libs restricted_funcs []
           (mkToken "PREPROCESSOR" "#define LIMIT 100" 1 1 "input.txt")
           "#define LIMIT 100");
    reflexivity.
Defined.

(** C10. The merger is triggered by adjacency of tokens, not of characters.
    For every source text in which an identifier is followed, after white
    space only, by an open parenthesis, the result of [tokenize] has a
    composite token in which the lexeme of the identifier is directly
    followed by the parenthesis.  For every source text the raw tokens are
    the tokens of the matches other than whitespace; at its cursor the
    merger opens a composite token exactly when the token there is an
    identifier and the very next token is the symbol [(], so any token in
    between keeps it from merging the two.  So [foo (x)] becomes the one
    composite token [foo(x)], while in [foo /*c*/ (x)] the comment token
    stands between [foo] and [(] and nothing is merged. *)
Theorem merge_trigger_is_token_adjacency :
  (forall allowed restricted tracker code filename i e p,
     In (mkMatch "IDENTIFIER" i e) (finditer code) ->
     e <= p ->
     (forall k, e <= k < p -> char_at is_space code k = true) ->
     char_at (is_char "(") code p = true ->
     exists c xs ys,
       In c (fst (tokenize_under allowed restricted tracker code filename)) /\
       type c = "FUNCTION_CALL" /\
       value c = join EmptyString (xs ++ slice code i e :: "(" :: ys))
  /\ (forall allowed restricted tracker code filename,
        fst (scan_under allowed restricted tracker code filename)
        = map (token_of code filename) (kept (finditer code)))
  /\ (forall token next rest,
        combine_function_calls (token :: next :: rest)
        = if is_call_start token next
          then call_token token
                 (fst (collect_call rest 1 [value token; value next]))
               :: combine_function_calls
                    (snd (collect_call rest 1 [value token; value next]))
          else token :: combine_function_calls (next :: rest))
  /\ (forall tracker filename,
        finditer "foo (x)"
        = [mkMatch "IDENTIFIER" 0 3; mkMatch "WHITESPACE" 3 4;
           mkMatch "SYMBOL" 4 5; mkMatch "IDENTIFIER" 5 6;
           mkMatch "SYMBOL" 6 7]
        /\ tokenize tracker "foo (x)" filename
           = ([mkToken "FUNCTION_CALL" "foo(x)" 1 1 filename], tracker))
  /\ (forall tracker filename,
        tokenize tracker "foo /*c*/ (x)" filename
        = ([mkToken "IDENTIFIER" "foo" 1 1 filename;
            mkToken "COMMENT" "/*c*/" 1 5 filename;
            mkToken "SYMBOL" "(" 1 11 filename;
            mkToken "IDENTIFIER" "x" 1 12 filename;
            mkToken "SYMBOL" ")" 1 13 filename],
           tracker)).
Proof.
  split; [|split; [|split; [|split]]].
  - intros. eapply identifier_then_paren_merged; eassumption.
  - intros. apply scan_tokens.
  - intros token next rest. destruct (is_call_start token next) eqn:E.
    + apply combine_merge, E.
    + apply combine_one_or_skip, E.
  - intros. split; vm_compute; reflexivity.
  - intros. vm_compute. reflexivity.
Qed.

Lemma merge_trigger_is_token_adjacency_witness :
  exists c xs ys,
    In c (fst (tokenize [] "foo (x)" "input.txt")) /\
    type c = "FUNCTION_CALL" /\
    value c = join EmptyString (xs ++ slice "foo (x)" 0 3 :: "(" :: ys).
Proof.
  apply (proj1 merge_trigger_is_token_adjacency allowed_libs restricted_funcs
           [] "foo (x)" "input.txt" 0 3 4).
  - vm_compute. left. reflexivity.
  - lia.
  - intros k Hk. assert (k = 3) as -> by lia. reflexivity.
  - reflexivity.
Defined.

(** * Further properties of the lexer *)

(** ** The merger: where its output comes from *)

Lemma collect_call_suffix tokens : forall paren_count call_tokens,
  exists consumed,
    tokens = consumed ++ snd (collect_call tokens paren_count call_tokens).
Proof.
  induction tokens as [|t ts IH]; intros p acc.
  - exists []. reflexivity.
  - rewrite collect_call_cons. destruct (0 <? p); [|exists []; reflexivity].
    assert (H : forall q a, exists consumed,
              t :: ts = consumed ++ snd (collect_call ts q a)).
    { intros q a. destruct (IH q a) as [l Hl]. exists (t :: l).
      simpl. f_equal. exact Hl. }
    destruct (value t =? "(")%string; [apply H|].
    destruct (value t =? ")")%string; apply H.
Qed.

Lemma collect_call_rest_In tokens paren_count call_tokens x :
  In x (snd (collect_call tokens paren_count call_tokens)) -> In x tokens.
Proof.
  destruct (collect_call_suffix tokens paren_count call_tokens) as [l Hl].
  intros H. rewrite Hl. apply in_or_app. right. exact H.
Qed.

(** Every token of the output is a token of the input or a composite token
    built on an identifier of the input. *)
Lemma combine_In_origin tokens : forall x,
  In x (combine_function_calls tokens) ->
  In x tokens \/
  exists y call_tokens,
    In y tokens /\ type y = "IDENTIFIER" /\ x = call_token y call_tokens.
Proof.
  funelim (combine_function_calls tokens); simp combine_function_calls;
    intros x Hx.
  - contradiction.
  - left. exact Hx.
  - destruct Hx as [<-|Hx].
    + right. eexists token, _. split; [left; reflexivity|].
      split; [|reflexivity].
      unfold is_call_start in Heq. apply andb_true_iff in Heq.
      destruct Heq as [Heq _]. apply andb_true_iff in Heq.
      apply String.eqb_eq, Heq.
    + destruct (H x Hx) as [Hin|[y [cs [Hin Hy]]]].
      * left. right. right. eapply collect_call_rest_In, Hin.
      * right. exists y, cs. split; [|exact Hy].
        right. right. eapply collect_call_rest_In, Hin.
  - destruct Hx as [<-|Hx]; [left; left; reflexivity|].
    destruct (H x Hx) as [Hin|[y [cs [Hin Hy]]]].
    + left. right. exact Hin.
    + right. exists y, cs. split; [right; exact Hin | exact Hy].
Qed.

Lemma combine_In_position tokens x :
  In x (combine_function_calls tokens) ->
  exists y, In y tokens /\ line x = line y /\ column x = column y.
Proof.
  intros Hx. destruct (combine_In_origin _ _ Hx) as [Hin|[y [cs [Hin [_ ->]]]]].
  - exists x. auto.
  - exists y. auto.
Qed.

Lemma StronglySorted_suffix {A} (R : A -> A -> Prop) l1 l2 :
  StronglySorted R (l1 ++ l2) -> StronglySorted R l2.
Proof.
  induction l1 as [|a l1 IH]; simpl; [auto|].
  intros H. apply IH. inversion H; assumption.
Qed.

(** The merger keeps a list that is ordered by position ordered. *)
Lemma combine_sorted tokens :
  StronglySorted position_le tokens ->
  StronglySorted position_le (combine_function_calls tokens).
Proof.
  funelim (combine_function_calls tokens); simp combine_function_calls;
    intros Hs.
  - inversion Hs as [|? ? Hs1 Hall]; subst.
    inversion Hs1 as [|? ? Hs2 _]; subst.
    destruct (collect_call_suffix rest 1 [value token; value next]) as [l Hl].
    constructor.
    + apply H. rewrite Hl in Hs2. eapply StronglySorted_suffix, Hs2.
    + rewrite Forall_forall in *. intros x Hx.
      destruct (combine_In_position _ _ Hx) as [y [Hy [E1 E2]]].
      apply collect_call_rest_In in Hy.
      specialize (Hall y (or_intror Hy)).
      unfold position_le in *. cbn [call_token line column].
      rewrite E1, E2. exact Hall.
  - inversion Hs as [|? ? Hs1 Hall]; subst.
    constructor; [apply H, Hs1|].
    rewrite Forall_forall in *. intros x Hx.
    destruct (combine_In_position _ _ Hx) as [y [Hy [E1 E2]]].
    specialize (Hall y Hy). unfold position_le in *.
    rewrite E1, E2. exact Hall.
Qed.

Lemma combine_length tokens :
  length (combine_function_calls tokens) <= length tokens.
Proof.
  funelim (combine_function_calls tokens); simp combine_function_calls.
  - lia.
  - lia.
  - destruct (collect_call_suffix rest 1 [value token; value next]) as [l Hl].
    apply (f_equal (@length Token)) in Hl. rewrite length_app in Hl.
    simpl. lia.
  - simpl in *. lia.
Qed.

(** ** The merger: lexemes *)

Lemma join_empty_cons x xs :
  join EmptyString (x :: xs) = (x ++ join EmptyString xs)%string.
Proof.
  unfold join. destruct xs as [|y ys]; simpl; [|reflexivity].
  induction x as [|c x IH]; simpl; [reflexivity|]. f_equal. exact IH.
Qed.

Lemma append_assoc (a b c : string) :
  ((a ++ b) ++ c = a ++ (b ++ c))%string.
Proof. induction a as [|x a IH]; simpl; [reflexivity|]. f_equal. exact IH. Qed.

Lemma join_empty_app l1 l2 :
  join EmptyString (l1 ++ l2)
  = (join EmptyString l1 ++ join EmptyString l2)%string.
Proof.
  induction l1 as [|x l1 IH]; [reflexivity|].
  cbn [app]. rewrite !join_empty_cons, IH, append_assoc. reflexivity.
Qed.

Lemma combine_lexemes tokens :
  join EmptyString (map value (combine_function_calls tokens))
  = join EmptyString (map value tokens).
Proof.
  funelim (combine_function_calls tokens); simp combine_function_calls.
  - reflexivity.
  - reflexivity.
  - cbn [map]. rewrite join_empty_cons, H. cbn [call_token value].
    rewrite <- join_empty_app, collect_call_concat. reflexivity.
  - cbn [map] in *. rewrite !join_empty_cons. rewrite join_empty_cons in H.
    rewrite H. reflexivity.
Qed.

(** ** The merger: balanced calls *)

Lemma collect_call_balanced args : forall depth rest paren_count call_tokens,
  balanced_from depth args = true -> 0 < paren_count ->
  collect_call (args ++ rest) (paren_count + depth) call_tokens
  = collect_call rest paren_count (call_tokens ++ map value args).
Proof.
  induction args as [|t args IH]; intros d rest p acc Hb Hp.
  - cbn [balanced_from] in Hb. apply Nat.eqb_eq in Hb. subst d.
    cbn [app map]. rewrite Nat.add_0_r, app_nil_r. reflexivity.
  - cbn [app map]. rewrite collect_call_cons.
    assert (Hpos : (0 <? p + d) = true) by (apply Nat.ltb_lt; lia).
    rewrite Hpos. cbn [balanced_from] in Hb.
    replace (acc ++ value t :: map value args)
      with ((acc ++ [value t]) ++ map value args)
      by (rewrite <- app_assoc; reflexivity).
    destruct (value t =? "(")%string.
    + rewrite <- (IH (S d) rest p _ Hb Hp). f_equal. lia.
    + destruct (value t =? ")")%string.
      * destruct d as [|d]; [discriminate|].
        rewrite <- (IH d rest p _ Hb Hp). f_equal. lia.
      * apply IH; assumption.
Qed.

(** ** [tokenize]: tokens and problems *)

Lemma tokenize_under_eq allowed restricted tracker code filename :
  tokenize_under allowed restricted tracker code filename
  = (combine_function_calls
       (fst (scan_under allowed restricted tracker code filename)),
     snd (scan_under allowed restricted tracker code filename)).
Proof.
  unfold tokenize_under.
  destruct (scan_under allowed restricted tracker code filename); reflexivity.
Qed.

(** [find_problems] only appends, at most one problem, on the line of the
    token, and what it appends does not depend on the tracker. *)
Lemma find_problems_appends allowed restricted tracker token text :
  find_problems_under allowed restricted tracker token text
  = tracker ++ find_problems_under allowed restricted [] token text
  /\ length (find_problems_under allowed restricted [] token text) <= 1
  /\ Forall (fun p => run_lexer.line p = line token)
            (find_problems_under allowed restricted [] token text).
Proof.
  unfold find_problems_under, add_problem.
  repeat match goal with
         | |- context [if ?b then _ else _] => destruct b
         | |- context [match ?o with Some _ => _ | None => _ end] =>
             destruct o as [[? ?]|] || destruct o
         end;
    cbn [app length]; rewrite ?app_nil_r;
    (split; [reflexivity | split; [lia | repeat constructor]]).
Qed.

Lemma visit_problems allowed restricted code filename ms : forall st,
  snd (fold_left (visit allowed restricted code filename (line_starts code))
                 ms st)
  = snd st ++
    flat_map (fun t => find_problems_under allowed restricted [] t (value t))
             (map (token_of code filename) (kept ms)).
Proof.
  induction ms as [|m ms IH]; intros st; cbn [fold_left].
  - cbn. rewrite app_nil_r. reflexivity.
  - rewrite IH. unfold kept. cbn [filter]. fold (kept ms).
    unfold is_whitespace, visit. cbv zeta.
    destruct (lastgroup m =? "WHITESPACE")%string; cbn [negb]; [reflexivity|].
    cbn [snd map flat_map].
    destruct (find_problems_appends allowed restricted (snd st)
                (token_of code filename m)
                (slice code (m_start m) (m_end m))) as [E _].
    unfold token_of in E |- *. cbv zeta in E |- *. cbn [value].
    rewrite E, <- app_assoc. reflexivity.
Qed.

(** The problems of a scan: those that were in the tracker, then the
    problems of the raw tokens, one token after the other. *)
Lemma scan_problems allowed restricted tracker code filename :
  snd (scan_under allowed restricted tracker code filename)
  = tracker ++
    flat_map (fun t => find_problems_under allowed restricted [] t (value t))
             (fst (scan_under allowed restricted tracker code filename)).
Proof.
  rewrite scan_tokens. unfold scan_under. rewrite visit_problems. reflexivity.
Qed.

Lemma raw_tokens_any_policy allowed restricted tracker allowed' restricted'
    tracker' code filename :
  fst (scan_under allowed restricted tracker code filename)
  = fst (scan_under allowed' restricted' tracker' code filename).
Proof. rewrite !scan_tokens. reflexivity. Qed.

(** X1. Whitespace elimination: no token that [tokenize] returns has type
    WHITESPACE, on any source text. *)
Theorem tokenize_no_whitespace allowed restricted tracker code filename :
  Forall (fun t => type t <> "WHITESPACE")
         (fst (tokenize_under allowed restricted tracker code filename)).
Proof.
  rewrite tokenize_under_eq. cbn [fst]. rewrite Forall_forall. intros x Hx.
  assert (Hraw : forall y,
            In y (fst (scan_under allowed restricted tracker code filename)) ->
            type y <> "WHITESPACE").
  { intros y Hy. rewrite scan_tokens in Hy. apply in_map_iff in Hy.
    destruct Hy as [m [<- Hm]]. apply filter_In in Hm. destruct Hm as [_ Hm].
    unfold is_whitespace in Hm. apply negb_true_iff in Hm.
    apply String.eqb_neq in Hm. exact Hm. }
  destruct (combine_In_origin _ _ Hx) as [Hin|[y [cs [_ [_ ->]]]]].
  - apply Hraw, Hin.
  - discriminate.
Qed.

(** X2. Diagnostics are advisory: the tokens that [tokenize] returns are the
    same under every policy and every state of the tracker. *)
Theorem tokens_independent_of_policy allowed restricted tracker
    allowed' restricted' tracker' code filename :
  fst (tokenize_under allowed restricted tracker code filename)
  = fst (tokenize_under allowed' restricted' tracker' code filename).
Proof.
  rewrite !tokenize_under_eq. cbn [fst].
  rewrite (raw_tokens_any_policy allowed restricted tracker
             allowed' restricted' tracker'). reflexivity.
Qed.

(** X3. The tracker is append-only: [tokenize] keeps the problems it finds in
    the tracker, in order, and adds after them the problems it would add to
    an empty tracker, which are no more than there are raw tokens. *)
Theorem tracker_append_only allowed restricted tracker code filename :
  snd (tokenize_under allowed restricted tracker code filename)
  = tracker ++ snd (tokenize_under allowed restricted [] code filename)
  /\ length (snd (tokenize_under allowed restricted [] code filename))
     <= length (fst (scan_under allowed restricted [] code filename)).
Proof.
  rewrite !tokenize_under_eq. cbn [snd]. rewrite !scan_problems.
  rewrite (raw_tokens_any_policy allowed restricted tracker
             allowed restricted []).
  split; [reflexivity|]. cbn [app].
  induction (fst (scan_under allowed restricted [] code filename))
    as [|t ts IH]; [reflexivity|].
  cbn [flat_map length]. rewrite length_app.
  destruct (find_problems_appends allowed restricted [] t (value t))
    as [_ [Hle _]]. lia.
Qed.

(** X4. The final token sequence is ordered: taken pairwise in order, the
    tokens that [tokenize] returns are non-decreasing in (line, column). *)
Theorem tokenize_ordered allowed restricted tracker code filename :
  StronglySorted position_le
    (fst (tokenize_under allowed restricted tracker code filename)).
Proof.
  rewrite tokenize_under_eq. cbn [fst]. apply combine_sorted.
  rewrite scan_tokens.
  destruct (scanned_sorted _ _ _ (finditer_scanned code)) as [Hsorted _].
  apply (StronglySorted_filter _ (fun m => negb (is_whitespace m))) in Hsorted.
  apply StronglySorted_map.
  eapply StronglySorted_impl_In; [|exact Hsorted].
  intros x y Hx _ Hxy. apply token_of_position.
  apply filter_In in Hx. destruct Hx as [Hx _].
  destruct (scanned_In _ _ _ _ (finditer_scanned code) Hx) as [_ Hm].
  apply master_at_span in Hm. cbv beta in Hxy. lia.
Qed.

Lemma position_le_line a b : position_le a b -> line a <= line b.
Proof. unfold position_le. lia. Qed.

Lemma raw_tokens_sorted allowed restricted tracker code filename :
  StronglySorted position_le
    (fst (scan_under allowed restricted tracker code filename)).
Proof.
  rewrite scan_tokens.
  destruct (scanned_sorted _ _ _ (finditer_scanned code)) as [Hsorted _].
  apply (StronglySorted_filter _ (fun m => negb (is_whitespace m))) in Hsorted.
  apply StronglySorted_map.
  eapply StronglySorted_impl_In; [|exact Hsorted].
  intros x y Hx _ Hxy. apply token_of_position.
  apply filter_In in Hx. destruct Hx as [Hx _].
  destruct (scanned_In _ _ _ _ (finditer_scanned code) Hx) as [_ Hm].
  apply master_at_span in Hm. cbv beta in Hxy. lia.
Qed.

Lemma problems_of_sorted_tokens allowed restricted tokens :
  StronglySorted position_le tokens ->
  StronglySorted le
    (map run_lexer.line
       (flat_map (fun t => find_problems_under allowed restricted [] t (value t))
                 tokens))
  /\ Forall (fun p => In (run_lexer.line p) (map line tokens))
       (flat_map (fun t => find_problems_under allowed restricted [] t (value t))
                 tokens).
Proof.
  induction 1 as [|t ts Hs [IH1 IH2] Hall]; [split; constructor|].
  cbn [flat_map map].
  destruct (find_problems_appends allowed restricted [] t (value t))
    as [_ [Hlen Hline]].
  destruct (find_problems_under allowed restricted [] t (value t))
    as [|p [|q l]]; cbn [app map length] in *; try lia.
  - split; [exact IH1|].
    eapply Forall_impl; [|exact IH2]. intros a Ha. right. exact Ha.
  - inversion Hline as [|? ? Hp _]; subst. split.
    + constructor; [exact IH1|].
      rewrite Forall_forall in *. intros n Hn. apply in_map_iff in Hn.
      destruct Hn as [q [<- Hq]]. specialize (IH2 q Hq).
      apply in_map_iff in IH2. destruct IH2 as [t' [E Ht']].
      rewrite Hp, <- E. apply position_le_line, Hall, Ht'.
    + constructor; [left; symmetry; exact Hp|].
      eapply Forall_impl; [|exact IH2]. intros a Ha. right. exact Ha.
Qed.

(** X5. Problems come in scan order: the lines of the problems that [tokenize]
    adds never decrease, and each is the line of a raw token. *)
Theorem problems_in_scan_order allowed restricted code filename :
  StronglySorted le
    (map run_lexer.line (snd (tokenize_under allowed restricted [] code filename)))
  /\ Forall (fun p => In (run_lexer.line p)
                        (map line (fst (scan_under allowed restricted []
                                                   code filename))))
            (snd (tokenize_under allowed restricted [] code filename)).
Proof.
  rewrite tokenize_under_eq. cbn [snd]. rewrite scan_problems. cbn [app].
  apply problems_of_sorted_tokens, raw_tokens_sorted.
Qed.

(** X6. A raw token is where it says it is: its lexeme is not empty, its line
    and column are at least 1, and the text of [code] at the offset of that
    line and column, over the length of the lexeme, is the lexeme. *)
Theorem raw_token_lexeme_at_position allowed restricted tracker code filename :
  Forall (fun t =>
            value t <> EmptyString /\ 1 <= line t /\ 1 <= column t /\
            offset_of code t + String.length (value t) <= String.length code /\
            slice code (offset_of code t)
                  (offset_of code t + String.length (value t)) = value t)
         (fst (scan_under allowed restricted tracker code filename)).
Proof.
  rewrite scan_tokens, Forall_forall. intros t Ht.
  apply in_map_iff in Ht. destruct Ht as [m [<- Hm]].
  apply filter_In in Hm. destruct Hm as [Hm _].
  destruct (scanned_In _ _ _ _ (finditer_scanned code) Hm) as [_ Hmm].
  apply master_at_span in Hmm. destruct Hmm as [_ Hspan].
  rewrite offset_of_token.
  assert (Hlen : String.length (value (token_of code filename m))
                 = m_end m - m_start m).
  { unfold token_of. cbn [value]. apply length_slice. lia. }
  rewrite Hlen. repeat split.
  - intros E. rewrite E in Hlen. simpl in Hlen. lia.
  - unfold token_of. cbn [line]. unfold line_number. apply advance_line_ge.
  - unfold token_of. cbn [column]. lia.
  - lia.
  - replace (m_start m + (m_end m - m_start m)) with (m_end m) by lia.
    reflexivity.
Qed.

(** ** The scanner skips only what nothing matches *)

Lemma finditer_from_covers code pos m0 :
  master_at patterns code pos = Some m0 ->
  forall fuel start,
    S (String.length code) - start <= fuel -> start <= pos ->
    exists m, In m (finditer_from fuel code start) /\
              m_start m <= pos < m_end m.
Proof.
  intros Hpos. pose proof (master_at_span _ _ _ Hpos) as [_ [Hlt Hle]].
  induction fuel as [|fuel IH]; intros start Hf Hs; [lia|].
  cbn [finditer_from].
  assert (E : (String.length code <? start) = false)
    by (apply Nat.ltb_ge; lia).
  rewrite E. destruct (master_at patterns code start) as [m|] eqn:Em.
  - pose proof (master_at_span _ _ _ Em) as [Hst [Hlt' Hle']].
    pose proof Hlt' as Hb. apply Nat.ltb_lt in Hb. rewrite Hb.
    destruct (Nat.lt_ge_cases pos (m_end m)) as [Hin|Hout].
    + exists m. split; [left; reflexivity | lia].
    + destruct (IH (m_end m) ltac:(lia) Hout) as [m' [Hm' Hspan]].
      exists m'. split; [right; exact Hm' | exact Hspan].
  - assert (start <> pos) by (intros ->; congruence).
    destruct (IH (S start) ltac:(lia) ltac:(lia)) as [m' [Hm' Hspan]].
    exists m'. split; assumption.
Qed.

(** X7. Silent skipping loses nothing that could have been a token: at every
    offset of every text, either the master pattern has no match, or the
    offset lies inside a match that the scan reports. *)
Theorem scanner_skips_only_unmatchable code pos :
  master_at patterns code pos = None \/
  exists m, In m (finditer code) /\ m_start m <= pos < m_end m.
Proof.
  destruct (master_at patterns code pos) as [m0|] eqn:E; [|left; reflexivity].
  right. apply (finditer_from_covers code pos m0 E); lia.
Qed.

(** ** What line and column mean *)

Lemma newline_ends_gt code : forall i e, In e (newline_ends i code) -> i < e.
Proof.
  induction code as [|c s IH]; intros i e; cbn [newline_ends];
    [contradiction|].
  destruct (is_char newline c); cbn [In].
  - intros [<-|H]; [lia | apply IH in H; lia].
  - intros H. apply IH in H. lia.
Qed.





Lemma newline_ends_complete code : forall i k,
  char_at (is_char newline) code k = true -> In (i + S k) (newline_ends i code).
Proof.
  induction code as [|c s IH]; intros i k; [destruct k; discriminate|].
  destruct k as [|k]; cbn [newline_ends].
  - unfold char_at. cbn [get]. intros ->. left. lia.
  - intros H. specialize (IH (S i) k H).
    replace (i + S (S k)) with (S i + S k) by lia.
    destruct (is_char newline c); [right|]; exact IH.
Qed.

Lemma newline_ends_sorted code : forall i,
  StronglySorted lt (newline_ends i code).
Proof.
  induction code as [|c s IH]; intros i; cbn [newline_ends]; [constructor|].
  destruct (is_char newline c); [|apply IH].
  constructor; [apply IH|].
  rewrite Forall_forall. intros e He. apply newline_ends_gt in He. exact He.
Qed.

Lemma line_starts_sorted code : StronglySorted lt (line_starts code).
Proof.
  unfold line_starts. constructor; [apply newline_ends_sorted|].
  rewrite Forall_forall. intros e He. apply newline_ends_gt in He. exact He.
Qed.

Lemma sorted_le_last (pre : list nat) :
  StronglySorted lt pre -> forall e, In e pre -> e <= last pre 0.
Proof.
  induction 1 as [|a l Hs IH Hall]; intros e He; [contradiction|].
  destruct l as [|b l]; [destruct He as [<-|[]]; simpl; lia|].
  change (last (a :: b :: l) 0) with (last (b :: l) 0).
  destruct He as [<-|He]; [|apply IH, He].
  rewrite Forall_forall in Hall.
  specialize (Hall b (or_introl eq_refl)).
  specialize (IH b (or_introl eq_refl)). lia.
Qed.

Lemma nth_last_pre (pre l : list nat) :
  pre <> [] -> nth (length pre - 1) (pre ++ l) 0 = last pre 0.
Proof.
  induction pre as [|a [|b pre] IH]; intros Hne;
    [contradiction | reflexivity |].
  specialize (IH ltac:(discriminate)).
  simpl in *. rewrite Nat.sub_0_r in IH. exact IH.
Qed.

(** The line start that [tokenize] picks is the last one at or before the
    offset. *)
Lemma advance_line_last later p : forall pre,
  StronglySorted lt (pre ++ later) -> pre <> [] ->
  forall e, In e (pre ++ later) -> e <= p ->
    e <= nth (advance_line later p (length pre) - 1) (pre ++ later) 0.
Proof.
  induction later as [|s later IH]; intros pre Hs Hne e He Hep;
    cbn [advance_line].
  - rewrite nth_last_pre by exact Hne. rewrite app_nil_r in *.
    apply sorted_le_last; assumption.
  - destruct (s <=? p) eqn:Es.
    + specialize (IH (pre ++ [s])).
      rewrite length_app, <- app_assoc in IH. cbn [length app] in IH.
      apply IH; try assumption. destruct pre; discriminate.
    + apply Nat.leb_gt in Es. rewrite nth_last_pre by exact Hne.
      apply in_app_iff in He. destruct He as [He|He].
      * apply sorted_le_last; [|exact He].
        clear -Hs. induction pre as [|a pre IH]; [constructor|].
        inversion Hs as [|? ? Hs' Hall]; subst. constructor; [apply IH, Hs'|].
        rewrite Forall_forall in *. intros x Hx. apply Hall.
        apply in_or_app. left. exact Hx.
      * apply StronglySorted_suffix in Hs.
        inversion Hs as [|? ? _ Hall]; subst.
        destruct He as [<-|He]; [lia|].
        rewrite Forall_forall in Hall. specialize (Hall e He). lia.
Qed.




(** ** The merger as a whole *)

(** X9. The merger neither invents, drops nor reorders text: the lexemes of
    its output, concatenated, are those of its input, concatenated; it never
    returns more tokens than it got; and each token it returns is a token of
    the input or a FUNCTION_CALL token at the line, column and file of an
    IDENTIFIER token of the input. *)
Theorem merger_keeps_lexemes (tokens : list Token) :
  join EmptyString (map value (combine_function_calls tokens))
  = join EmptyString (map value tokens)
  /\ length (combine_function_calls tokens) <= length tokens
  /\ Forall (fun x =>
               In x tokens \/
               (type x = "FUNCTION_CALL" /\
                exists y, In y tokens /\ type y = "IDENTIFIER" /\
                          line x = line y /\ column x = column y /\
                          filename x = filename y))
            (combine_function_calls tokens).
Proof.
  split; [apply combine_lexemes|]. split; [apply combine_length|].
  rewrite Forall_forall. intros x Hx.
  destruct (combine_In_origin _ _ Hx) as [Hin|[y [cs [Hin [Hy ->]]]]].
  - left. exact Hin.
  - right. split; [reflexivity|]. exists y. repeat split; assumption.
Qed.

(** X10. A call whose arguments close every parenthesis they open is folded up
    to its own closing parenthesis, and the merger goes on with the token
    after it. *)
Theorem balanced_call_folded id lp args rp rest :
  is_call_start id lp = true ->
  balanced_from 0 args = true ->
  value rp = ")" ->
  combine_function_calls (id :: lp :: args ++ rp :: rest)
  = call_token id (value id :: value lp :: map value args ++ [value rp])
    :: combine_function_calls rest.
Proof.
  intros Hcall Hbal Hrp. rewrite (combine_merge _ _ _ Hcall).
  pose proof (collect_call_balanced args 0 (rp :: rest) 1
                [value id; value lp] Hbal ltac:(lia)) as H.
  replace (1 + 0) with 1 in H by lia. rewrite H.
  rewrite collect_call_cons. rewrite Hrp.
  cbn [Nat.ltb Nat.leb String.eqb Ascii.eqb Bool.eqb Nat.sub].
  assert (E : forall acc, collect_call rest 0 acc = (acc, rest))
    by (intros acc; destruct rest; reflexivity).
  rewrite E. cbn [fst snd]. rewrite <- app_assoc. reflexivity.
Qed.

Lemma balanced_call_folded_witness :
  combine_function_calls
    [mkToken "IDENTIFIER" "f" 1 1 "input.txt";
     mkToken "SYMBOL" "(" 1 2 "input.txt";
     mkToken "SYMBOL" "(" 1 3 "input.txt";
     mkToken "IDENTIFIER" "a" 1 4 "input.txt";
     mkToken "SYMBOL" ")" 1 5 "input.txt";
     mkToken "SYMBOL" ")" 1 6 "input.txt";
     mkToken "SYMBOL" ";" 1 7 "input.txt"]
  = [mkToken "FUNCTION_CALL" "f((a))" 1 1 "input.txt";
     mkToken "SYMBOL" ";" 1 7 "input.txt"].
Proof.
  apply (balanced_call_folded
           (mkToken "IDENTIFIER" "f" 1 1 "input.txt")
           (mkToken "SYMBOL" "(" 1 2 "input.txt")
           [mkToken "SYMBOL" "(" 1 3 "input.txt";
            mkToken "IDENTIFIER" "a" 1 4 "input.txt";
            mkToken "SYMBOL" ")" 1 5 "input.txt"]
           (mkToken "SYMBOL" ")" 1 6 "input.txt")
           [mkToken "SYMBOL" ";" 1 7 "input.txt"]);
    reflexivity.
Defined.

(** ** Tokens are never blank *)

Lemma all_ascii_spec P : all_ascii P = true -> forall c, P c = true.
Proof.
  unfold all_ascii. rewrite forallb_forall. intros H c.
  rewrite <- (ascii_nat_embedding c). apply H. apply in_seq.
  pose proof (nat_ascii_bounded c). lia.
Qed.

Lemma all_chars_get P s : forall k c,
  all_chars P s = true -> get k s = Some c -> P c = true.
Proof.
  induction s as [|a s IH]; intros k c H Hk; [destruct k; discriminate|].
  cbn [all_chars] in H. apply andb_true_iff in H. destruct H as [Ha Hs].
  destruct k as [|k]; cbn [get] in Hk.
  - injection Hk as <-. exact Ha.
  - eapply IH; eassumption.
Qed.

Lemma ends_takes_nonspace r code :
  takes_nonspace r = true ->
  forall i e, In e (ends r code i) ->
    exists k, i <= k < e /\ char_at (fun c => negb (is_space c)) code k = true.
Proof.
  induction r as [| |p|r1 IH1 r2 IH2|r1 IH1 r2 IH2|r1 IH1|r1 IH1| | |];
    cbn [takes_nonspace]; intros Ht i e He; try discriminate.
  - rewrite ends_Cls in He.
    destruct (char_at p code i) eqn:E; [|contradiction].
    destruct He as [<-|[]]. exists i. split; [lia|].
    destruct (char_at_get _ _ _ E) as [c [Hc Hp]].
    unfold char_at. rewrite Hc.
    pose proof (all_ascii_spec _ Ht c) as H. cbv beta in H.
    rewrite Hp, andb_true_r in H. exact H.
  - cbn [ends] in He. apply in_flat_map in He. destruct He as [j [Hj He]].
    pose proof (ends_bounds _ _ _ _ Hj) as [Hij _].
    pose proof (ends_bounds _ _ _ _ He) as [Hje _].
    apply orb_true_iff in Ht. destruct Ht as [Ht|Ht].
    + destruct (IH1 Ht _ _ Hj) as [k [Hk Hc]]. exists k. split; [lia | exact Hc].
    + destruct (IH2 Ht _ _ He) as [k [Hk Hc]]. exists k. split; [lia | exact Hc].
  - cbn [ends] in He. apply andb_true_iff in Ht. destruct Ht as [Ht1 Ht2].
    apply in_app_iff in He. destruct He as [He|He]; eauto.
Qed.

Lemma patterns_take_nonspace :
  forallb (fun nr => takes_nonspace (snd nr)) (firstn 20 patterns) = true.
Proof. vm_compute. reflexivity. Qed.

Lemma get_in_slice code i j k :
  i <= k < j -> get (k - i) (slice code i j) = get k code.
Proof.
  intros H. unfold slice. rewrite substring_correct1 by lia.
  f_equal. lia.
Qed.

(** A kept match holds a character that is not white space. *)
Lemma kept_match_nonspace code m :
  master_at patterns code (m_start m) = Some m ->
  is_whitespace m = false ->
  exists k, m_start m <= k < m_end m /\
            char_at (fun c => negb (is_space c)) code k = true.
Proof.
  intros Hm Hws. apply master_at_sound in Hm.
  destruct Hm as [r [Hr [_ Hm]]]. apply match_at_In in Hm.
  change patterns with (firstn 20 patterns ++ [("WHITESPACE", WHITESPACE)])
    in Hr.
  apply in_app_iff in Hr. destruct Hr as [Hr|[Hr|[]]].
  - pose proof patterns_take_nonspace as H. rewrite forallb_forall in H.
    apply H in Hr. cbn [snd] in Hr.
    exact (ends_takes_nonspace _ _ Hr _ _ Hm).
  - injection Hr as Hname _. unfold is_whitespace in Hws.
    rewrite <- Hname in Hws. discriminate.
Qed.

(** X11. No raw token is blank: on every source text, the lexeme of each raw
    token holds at least one character that is not white space. *)
Theorem raw_tokens_not_blank allowed restricted tracker code filename :
  Forall (fun t => exists k c, get k (value t) = Some c /\ is_space c = false)
         (fst (scan_under allowed restricted tracker code filename)).
Proof.
  rewrite scan_tokens, Forall_forall. intros t Ht.
  apply in_map_iff in Ht. destruct Ht as [m [<- Hm]].
  apply filter_In in Hm. destruct Hm as [Hm Hws].
  apply negb_true_iff in Hws.
  destruct (scanned_In _ _ _ _ (finditer_scanned code) Hm) as [_ Hmm].
  destruct (kept_match_nonspace _ _ Hmm Hws) as [k [Hk Hc]].
  destruct (char_at_get _ _ _ Hc) as [c [Hget Hns]].
  exists (k - m_start m), c. unfold token_of. cbn [value].
  rewrite get_in_slice by exact Hk. split; [exact Hget|].
  apply negb_true_iff in Hns. exact Hns.
Qed.

(** X12. A text of white space only, the empty text included, gives no token
    and no problem. *)
Theorem blank_text_no_tokens allowed restricted tracker code filename :
  all_chars is_space code = true ->
  tokenize_under allowed restricted tracker code filename = ([], tracker).
Proof.
  intros Hblank. rewrite tokenize_under_eq, scan_problems.
  assert (Hraw : fst (scan_under allowed restricted tracker code filename) = []).
  { rewrite scan_tokens.
    destruct (kept (finditer code)) as [|m ms] eqn:E; [reflexivity|].
    assert (Hm : In m (kept (finditer code))) by (rewrite E; left; reflexivity).
    apply filter_In in Hm. destruct Hm as [Hm Hws].
    apply negb_true_iff in Hws.
    destruct (scanned_In _ _ _ _ (finditer_scanned code) Hm) as [_ Hmm].
    destruct (kept_match_nonspace _ _ Hmm Hws) as [k [_ Hc]].
    destruct (char_at_get _ _ _ Hc) as [c [Hget Hns]].
    rewrite (all_chars_get _ _ _ _ Hblank Hget) in Hns. discriminate. }
  rewrite Hraw. cbn [flat_map]. rewrite app_nil_r.
  simp combine_function_calls. reflexivity.
Qed.

Lemma blank_text_no_tokens_witness :
  tokenize [] (String " " (String newline (String " " EmptyString)))
           "input.txt" = ([], []).
Proof.
  apply (blank_text_no_tokens allowed_libs restricted_funcs []
           (String " " (String newline (String " " EmptyString))) "input.txt").
  reflexivity.
Defined.

(** ** What is diagnosed on ASCII text *)

Lemma ends_Star_nonempty r code i : ends (Star r) code i <> [].
Proof.
  rewrite ends_Star. intros H. apply app_eq_nil in H.
  destruct H as [_ H]. discriminate.
Qed.

Lemma match_at_class_then_star p q code i :
  char_at p code i = true ->
  match_at (Seq (Cls p) (Star (Cls q))) code i <> None.
Proof.
  intros Hp. unfold match_at.
  change (ends (Seq (Cls p) (Star (Cls q))) code i)
    with (flat_map (ends (Star (Cls q)) code) (ends (Cls p) code i)).
  rewrite ends_Cls, Hp. cbn [flat_map]. rewrite app_nil_r.
  pose proof (ends_Star_nonempty (Cls q) code (S i)).
  destruct (ends (Star (Cls q)) code (S i)); [contradiction | discriminate].
Qed.

Lemma patterns_NAMESPACE r : In ("NAMESPACE", r) patterns -> r = NAMESPACE.
Proof.
  unfold patterns. simpl.
  intros H. repeat (destruct H as [H|H]; [inversion H; try reflexivity|]).
  contradiction.
Qed.

Lemma first_NAMESPACE bol c : first bol NAMESPACE c = is_word c.
Proof.
  unfold NAMESPACE, Plus. cbn [Seqs first nullable].
  rewrite !andb_false_l, !orb_false_r. reflexivity.
Qed.

Lemma latin1_alnum_not_ascii c :
  is_latin1_alnum c = true -> (ord c <? 128) = false.
Proof.
  destruct c as [[] [] [] [] [] [] [] []]; vm_compute;
    intros H; try reflexivity; discriminate H.
Qed.

(** A NAMESPACE match starts with a word character that is neither an
    ASCII letter, nor a digit, nor the underscore: anywhere else IDENTIFIER
    or INT_NUMBER, declared before NAMESPACE, matches first. *)
Lemma namespace_match_start code m :
  master_at patterns code (m_start m) = Some m ->
  lastgroup m = "NAMESPACE" ->
  char_at is_latin1_alnum code (m_start m) = true.
Proof.
  intros Hm Hname.
  assert (Hearly : forall nr, In nr (firstn 19 patterns) ->
                              match_at (snd nr) code (m_start m) = None).
  { change patterns with (firstn 19 patterns ++ skipn 19 patterns) in Hm.
    apply (master_at_earlier_fail _ _ _ _ _ Hm). rewrite Hname. reflexivity. }
  assert (Hid : match_at IDENTIFIER code (m_start m) = None)
    by (apply (Hearly ("IDENTIFIER", IDENTIFIER)); simpl; tauto).
  assert (Hint : match_at INT_NUMBER code (m_start m) = None)
    by (apply (Hearly ("INT_NUMBER", INT_NUMBER)); simpl; tauto).
  pose proof (master_at_span _ _ _ Hm) as [_ [Hlt _]].
  apply master_at_sound in Hm. destruct Hm as [r [Hr [_ Hm]]].
  rewrite Hname in Hr. apply patterns_NAMESPACE in Hr. subst r.
  apply match_at_In in Hm.
  destruct (ends_first _ _ _ _ Hm) as [[E _]|[_ Hc]]; [lia|].
  destruct (char_at_get _ _ _ Hc) as [c [Hget Hw]].
  rewrite first_NAMESPACE in Hw.
  unfold char_at. rewrite Hget.
  destruct (is_ident_start c) eqn:Es.
  - exfalso. apply (match_at_class_then_star is_ident_start is_word code
                      (m_start m)); [|exact Hid].
    unfold char_at. rewrite Hget. exact Es.
  - destruct (is_digit c) eqn:Ed.
    + exfalso. apply (match_at_class_then_star is_digit is_digit code
                        (m_start m)); [|exact Hint].
      unfold char_at. rewrite Hget. exact Ed.
    + unfold is_word in Hw. unfold is_ident_start in Es.
      apply orb_false_iff in Es. destruct Es as [E1 E2].
      rewrite E1, Ed, E2 in Hw. exact Hw.
Qed.

Lemma raw_identifier_no_paren allowed restricted tracker code filename t :
  In t (fst (scan_under allowed restricted tracker code filename)) ->
  type t = "IDENTIFIER" -> contains "(" (value t) = false.
Proof.
  intros Hin Hty. apply raw_token_match in Hin.
  destruct Hin as [m [Ht Hm]]. subst t. cbn [type value token_of] in *.
  apply master_at_sound in Hm. destruct Hm as [r [Hr [_ Hm]]].
  rewrite Hty in Hr. apply patterns_IDENTIFIER in Hr. subst r.
  destruct (contains "(" (slice code (m_start m) (m_end m))) eqn:E;
    [|reflexivity].
  apply contains_char in E. destruct E as [k Hk].
  apply (identifier_lexeme_words _ _ _ _ _ Hm) in Hk. discriminate.
Qed.

Lemma flat_map_filter {A B} (f : A -> bool) (g : A -> list B) l :
  (forall x, In x l -> f x = false -> g x = []) ->
  flat_map g l = flat_map g (filter f l).
Proof.
  induction l as [|a l IH]; intros H; [reflexivity|].
  cbn [flat_map filter]. rewrite IH by (intros; apply H; [right|]; assumption).
  destruct (f a) eqn:E; [reflexivity|].
  rewrite (H a (or_introl eq_refl) E). reflexivity.
Qed.

(** X13. On ASCII source text only preprocessor directives are ever diagnosed:
    no raw token has type NAMESPACE, so the check for [std::] never
    reports, no more than the check for restricted calls; the problems
    added are exactly those of the PREPROCESSOR tokens, in order. *)
Theorem ascii_text_diagnoses_directives_only allowed restricted tracker
    code filename :
  all_chars (fun c => ord c <? 128) code = true ->
  let raw := fst (scan_under allowed restricted tracker code filename) in
  Forall (fun t => type t <> "NAMESPACE") raw /\
  snd (tokenize_under allowed restricted tracker code filename)
  = tracker ++
    flat_map (fun t => find_problems_under allowed restricted [] t (value t))
             (filter (fun t => (type t =? "PREPROCESSOR")%string) raw).
Proof.
  intros Hascii raw.
  assert (Hns : Forall (fun t => type t <> "NAMESPACE") raw).
  { rewrite Forall_forall. intros t Ht Hty. apply raw_token_match in Ht.
    destruct Ht as [m [-> Hm]]. cbn [type token_of] in Hty.
    pose proof (namespace_match_start _ _ Hm Hty) as Hc.
    destruct (char_at_get _ _ _ Hc) as [c [Hget Hl]].
    apply latin1_alnum_not_ascii in Hl.
    pose proof (all_chars_get _ _ _ _ Hascii Hget) as Ha. cbv beta in Ha.
    congruence. }
  split; [exact Hns|].
  rewrite tokenize_under_eq. cbn [snd]. rewrite scan_problems. fold raw.
  f_equal. apply flat_map_filter. intros t Ht Hpre.
  rewrite Forall_forall in Hns. specialize (Hns t Ht).
  unfold find_problems_under. rewrite Hpre. cbn [andb].
  destruct (type t =? "IDENTIFIER")%string eqn:Ei.
  - apply String.eqb_eq in Ei.
    rewrite (raw_identifier_no_paren _ _ _ _ _ _ Ht Ei). cbn [andb].
    rewrite Ei. reflexivity.
  - cbn [andb]. apply String.eqb_neq in Hns. rewrite Hns. reflexivity.
Qed.

Lemma ascii_text_diagnoses_directives_only_witness :
  let raw := fst (scan [] "std::sort(printf(x))" "input.txt") in
  Forall (fun t => type t <> "NAMESPACE") raw /\
  snd (tokenize [] "std::sort(printf(x))" "input.txt")
  = [] ++
    flat_map (fun t => find_problems [] t (value t))
             (filter (fun t => (type t =? "PREPROCESSOR")%string) raw).
Proof.
  apply (ascii_text_diagnoses_directives_only allowed_libs restricted_funcs
           [] "std::sort(printf(x))" "input.txt").
  reflexivity.
Defined.

(** * Properties of the reference algorithms *)

Import stl_library.

(** ** [sort] *)

Lemma three_way_partition (pivot : Z) (l : list Z) :
  Permutation l
    (filter (fun x => (x <? pivot)%Z) l ++
     filter (fun x => (x =? pivot)%Z) l ++
     filter (fun x => (pivot <? x)%Z) l).
Proof.
  induction l as [|a l IH]; [constructor|]. cbn [filter].
  destruct (Z.ltb_spec a pivot) as [Hlt|Hge].
  - assert (E1 : (a =? pivot)%Z = false) by (apply Z.eqb_neq; lia).
    assert (E2 : (pivot <? a)%Z = false) by (apply Z.ltb_ge; lia).
    rewrite E1, E2. cbn [app]. constructor. exact IH.
  - destruct (Z.eqb_spec a pivot) as [Heq|Hne].
    + assert (E2 : (pivot <? a)%Z = false) by (apply Z.ltb_ge; lia).
      rewrite E2. apply Permutation_cons_app. exact IH.
    + assert (E2 : (pivot <? a)%Z = true) by (apply Z.ltb_lt; lia).
      rewrite E2. rewrite app_assoc. apply Permutation_cons_app.
      rewrite <- app_assoc. exact IH.
Qed.

Lemma StronglySorted_app {A} (R : A -> A -> Prop) l1 l2 :
  StronglySorted R l1 -> StronglySorted R l2 ->
  (forall x y, In x l1 -> In y l2 -> R x y) ->
  StronglySorted R (l1 ++ l2).
Proof.
  induction 1 as [|a l1 Hs IH Hall]; intros H2 Hcross; [exact H2|].
  cbn [app]. constructor.
  - apply IH; [exact H2|]. intros x y Hx Hy. apply Hcross; [right|]; assumption.
  - rewrite Forall_forall in *. intros y Hy. apply in_app_iff in Hy.
    destruct Hy as [Hy|Hy]; [apply Hall, Hy|].
    apply Hcross; [left; reflexivity | exact Hy].
Qed.

Lemma StronglySorted_rev {A} (R : A -> A -> Prop) l :
  StronglySorted R l -> StronglySorted (fun x y => R y x) (rev l).
Proof.
  induction 1 as [|a l Hs IH Hall]; [constructor|]. cbn [rev].
  apply StronglySorted_app; [exact IH | repeat constructor|].
  intros x y Hx [<-|[]]. apply in_rev in Hx.
  rewrite Forall_forall in Hall. apply Hall, Hx.
Qed.

Lemma StronglySorted_all_equal (p : Z) l :
  Forall (fun x => x = p) l -> StronglySorted Z.le l.
Proof.
  induction 1 as [|a l Ha Hl IH]; constructor; [exact IH|].
  eapply Forall_impl; [|exact Hl]. intros b Hb. cbv beta in *. lia.
Qed.

Lemma sort_ascending_correct arr ascending :
  Permutation arr (sort arr ascending) /\
  (ascending = true -> StronglySorted Z.le (sort arr ascending)) /\
  (ascending = false -> StronglySorted Z.ge (sort arr ascending)).
Proof.
  funelim (sort arr ascending); simp sort.
  - repeat split; constructor.
  - repeat split; intros; repeat constructor.
  - cbv zeta.
    set (arr := x :: y :: l) in *.
    set (pivot := nth (length arr / 2) arr 0%Z) in *.
    destruct H as [Hp1 [Hs1 _]], H0 as [Hp2 [Hs2 _]].
    specialize (Hs1 eq_refl). specialize (Hs2 eq_refl).
    set (lo := sort (filter (fun x => (x <? pivot)%Z) arr) true) in *.
    set (hi := sort (filter (fun x => (pivot <? x)%Z) arr) true) in *.
    assert (Hperm : Permutation arr
              (lo ++ filter (fun x => (x =? pivot)%Z) arr ++ hi)).
    { etransitivity; [apply (three_way_partition pivot)|].
      apply Permutation_app; [exact Hp1|].
      apply Permutation_app_head. exact Hp2. }
    assert (Hlo : forall a, In a lo -> (a < pivot)%Z).
    { intros a Ha. apply (Permutation_in _ (Permutation_sym Hp1)) in Ha.
      apply filter_In in Ha. apply Z.ltb_lt, Ha. }
    assert (Hhi : forall a, In a hi -> (pivot < a)%Z).
    { intros a Ha. apply (Permutation_in _ (Permutation_sym Hp2)) in Ha.
      apply filter_In in Ha. apply Z.ltb_lt, Ha. }
    assert (Hmid : forall a, In a (filter (fun x => (x =? pivot)%Z) arr) ->
                             a = pivot).
    { intros a Ha. apply filter_In in Ha. apply Z.eqb_eq, Ha. }
    assert (Hsorted : StronglySorted Z.le
              (lo ++ filter (fun x => (x =? pivot)%Z) arr ++ hi)).
    { apply StronglySorted_app; [exact Hs1 | |].
      - apply StronglySorted_app; [|exact Hs2|].
        + apply (StronglySorted_all_equal pivot). rewrite Forall_forall.
          exact Hmid.
        + intros a b Ha Hb. apply Hmid in Ha. apply Hhi in Hb. lia.
      - intros a b Ha Hb. apply Hlo in Ha. apply in_app_iff in Hb.
        destruct Hb as [Hb|Hb]; [apply Hmid in Hb | apply Hhi in Hb]; lia. }
    destruct ascending.
    + split; [exact Hperm|]. split; [intros _; exact Hsorted | discriminate].
    + split; [etransitivity; [exact Hperm | apply Permutation_rev]|].
      split; [discriminate|]. intros _.
      apply StronglySorted_rev in Hsorted.
      eapply StronglySorted_impl_In; [|exact Hsorted].
      intros a b _ _ Hab. cbv beta in Hab. lia.
Qed.

(** X14. [sort] returns the items of its argument, each as often as it occurs
    there, in ascending order, or in descending order when [ascending] is
    false. *)
Theorem sort_sorted_permutation arr ascending :
  Permutation arr (sort arr ascending) /\
  StronglySorted (if ascending then Z.le else Z.ge) (sort arr ascending).
Proof.
  destruct (sort_ascending_correct arr ascending) as [Hp [Ht Hf]].
  split; [exact Hp|]. destruct ascending; [apply Ht | apply Hf]; reflexivity.
Qed.

(** ** [reverse] *)

Lemma index_in_range len i :
  (0 <= i < Z.of_nat len)%Z -> index len i = Some (Z.to_nat i).
Proof.
  intros H. unfold index.
  assert (E : (i <? 0)%Z = false) by (apply Z.ltb_ge; lia). rewrite E.
  assert (E1 : (0 <=? i)%Z = true) by (apply Z.leb_le; lia).
  assert (E2 : (i <? Z.of_nat len)%Z = true) by (apply Z.ltb_lt; lia).
  rewrite E1, E2. reflexivity.
Qed.

Lemma length_update {A} (x : A) l : forall n, length (update n x l) = length l.
Proof.
  induction l as [|a l IH]; intros [|n]; simpl; try reflexivity.
  rewrite IH. reflexivity.
Qed.

Lemma nth_error_update {A} (x : A) l : forall n i,
  n < length l ->
  nth_error (update n x l) i = if i =? n then Some x else nth_error l i.
Proof.
  induction l as [|a l IH]; intros [|n] [|i] Hn; simpl in *; try lia;
    try reflexivity.
  apply IH. lia.
Qed.

(** One pass of the loop keeps the picture: outside [left_..right_] the
    list is already the mirror image of the original [l0], inside it is
    still [l0]. *)
Lemma reverse_loop_mirrors {A} (l0 : list A) : forall arr left_ right_,
  length arr = length l0 ->
  (0 <= left_)%Z ->
  (left_ + right_ = Z.of_nat (length l0) - 1)%Z ->
  (forall i, i < length l0 ->
     nth_error arr i
     = if ((Z.of_nat i <? left_) || (right_ <? Z.of_nat i))%Z
       then nth_error l0 (length l0 - 1 - i) else nth_error l0 i) ->
  reverse_loop arr left_ right_ = Some (rev l0).
Proof.
  intros arr left_ right_.
  funelim (reverse_loop arr left_ right_); intros Hlen H0 Hsum Hinv.
  - (* the loop is over *)
    f_equal. apply nth_error_ext. intros i.
    destruct (Nat.lt_ge_cases i (length l0)) as [Hi|Hi].
    + rewrite (Hinv i Hi), nth_error_rev.
      assert (E : (i <? length l0) = true) by (apply Nat.ltb_lt; exact Hi).
      rewrite E.
      destruct ((Z.of_nat i <? left_) || (right_ <? Z.of_nat i))%Z eqn:Eo.
      * f_equal. lia.
      * apply orb_false_iff in Eo. destruct Eo as [E1 E2].
        apply Z.ltb_ge in E1, E2. f_equal. lia.
    + transitivity (@None A).
      * apply nth_error_None. lia.
      * symmetry. apply nth_error_None. rewrite length_rev. exact Hi.
  - (* the swap succeeded *)
    clear Heqcall. unfold swap_items, getitem, setitem in Heq.
    rewrite (index_in_range (length arr) right_) in Heq by lia.
    rewrite (index_in_range (length arr) left_) in Heq by lia.
    destruct (nth_error arr (Z.to_nat right_)) as [a|] eqn:Ea;
      [|discriminate].
    destruct (nth_error arr (Z.to_nat left_)) as [b|] eqn:Eb;
      [|discriminate].
    rewrite length_update in Heq.
    rewrite (index_in_range (length arr) right_) in Heq by lia.
    injection Heq as <-.
    apply H; rewrite ?length_update; try lia.
    intros i Hi.
    rewrite nth_error_update by (rewrite length_update; lia).
    rewrite nth_error_update by lia.
    pose proof (Hinv i Hi) as Hi'.
    pose proof (Hinv (Z.to_nat left_) ltac:(lia)) as Hl.
    pose proof (Hinv (Z.to_nat right_) ltac:(lia)) as Hr.
    rewrite Eb in Hl. rewrite Ea in Hr.
    replace ((Z.of_nat (Z.to_nat left_) <? left_)%Z) with false in Hl
      by (symmetry; apply Z.ltb_ge; lia).
    replace ((right_ <? Z.of_nat (Z.to_nat left_))%Z) with false in Hl
      by (symmetry; apply Z.ltb_ge; lia).
    replace ((Z.of_nat (Z.to_nat right_) <? left_)%Z) with false in Hr
      by (symmetry; apply Z.ltb_ge; lia).
    replace ((right_ <? Z.of_nat (Z.to_nat right_))%Z) with false in Hr
      by (symmetry; apply Z.ltb_ge; lia).
    cbn [orb] in Hl, Hr.
    destruct (Nat.eqb_spec i (Z.to_nat right_)) as [->|Hnr].
    + replace ((Z.of_nat (Z.to_nat right_) <? left_ + 1)%Z) with false
        by (symmetry; apply Z.ltb_ge; lia).
      replace ((right_ - 1 <? Z.of_nat (Z.to_nat right_))%Z) with true
        by (symmetry; apply Z.ltb_lt; lia).
      cbn [orb]. rewrite Hl. f_equal. lia.
    + destruct (Nat.eqb_spec i (Z.to_nat left_)) as [->|Hnl].
      * replace ((Z.of_nat (Z.to_nat left_) <? left_ + 1)%Z) with true
          by (symmetry; apply Z.ltb_lt; lia).
        cbn [orb]. rewrite Hr. f_equal. lia.
      * rewrite Hi'.
        replace ((Z.of_nat i <? left_ + 1)%Z) with ((Z.of_nat i <? left_)%Z)
          by (destruct (Z.ltb_spec (Z.of_nat i) left_);
              destruct (Z.ltb_spec (Z.of_nat i) (left_ + 1)); lia || reflexivity).
        replace ((right_ - 1 <? Z.of_nat i)%Z) with ((right_ <? Z.of_nat i)%Z)
          by (destruct (Z.ltb_spec right_ (Z.of_nat i));
              destruct (Z.ltb_spec (right_ - 1) (Z.of_nat i)); lia || reflexivity).
        reflexivity.
  - (* the swap raised: impossible, both indices are in range *)
    exfalso. clear Heqcall. unfold swap_items, getitem, setitem in Heq.
    rewrite (index_in_range (length arr) right_) in Heq by lia.
    rewrite (index_in_range (length arr) left_) in Heq by lia.
    destruct (nth_error arr (Z.to_nat right_)) as [a|] eqn:Ea;
      [|apply nth_error_None in Ea; lia].
    destruct (nth_error arr (Z.to_nat left_)) as [b|] eqn:Eb;
      [|apply nth_error_None in Eb; lia].
    rewrite length_update in Heq.
    rewrite (index_in_range (length arr) right_) in Heq by lia.
    discriminate.
Qed.

(** X15. [reverse] never runs out of range and leaves the list reversed: its
    result is the list read backwards, for every list, the empty one
    included. *)
Theorem reverse_is_rev {A} (arr : list A) : reverse arr = Some (rev arr).
Proof.
  unfold reverse. apply reverse_loop_mirrors; try lia.
  intros i Hi.
  replace ((Z.of_nat i <? 0)%Z) with false by (symmetry; apply Z.ltb_ge; lia).
  replace ((Z.of_nat (length arr) - 1 <? Z.of_nat i)%Z) with false
    by (symmetry; apply Z.ltb_ge; lia).
  reflexivity.
Qed.

(** ** [find] *)

Lemma find_from_spec arr target : forall i,
  (find_from i arr target = (-1)%Z /\ ~ In target arr) \/
  (exists n, find_from i arr target = (i + Z.of_nat n)%Z /\
             nth_error arr n = Some target /\
             forall j, j < n -> nth_error arr j <> Some target).
Proof.
  induction arr as [|a arr IH]; intros i; cbn [find_from].
  - left. split; [reflexivity | intros []].
  - destruct (Z.eqb_spec a target) as [->|Hne].
    + right. exists 0. repeat split; [lia | intros j Hj; lia].
    + destruct (IH (i + 1)%Z) as [[E Hnot]|[n [E [Hn Hfirst]]]].
      * left. split; [exact E|]. intros [H|H]; [congruence | auto].
      * right. exists (S n). repeat split; [rewrite E; lia | exact Hn|].
        intros [|j] Hj; cbn [nth_error]; [congruence | apply Hfirst; lia].
Qed.

(** X16. [find] returns -1 exactly when the target is not in the list;
    otherwise it returns the index of the first occurrence of the target:
    an index inside the list, holding the target, with no occurrence before
    it. *)
Theorem find_first_occurrence arr target :
  (find arr target = (-1)%Z /\ ~ In target arr) \/
  (exists n, find arr target = Z.of_nat n /\ n < length arr /\
             nth_error arr n = Some target /\
             forall j, j < n -> nth_error arr j <> Some target).
Proof.
  unfold find. destruct (find_from_spec arr target 0)
    as [[E Hnot]|[n [E [Hn Hfirst]]]].
  - left. split; assumption.
  - right. exists n. repeat split; try assumption.
    apply nth_error_Some. congruence.
Qed.

(** * Properties of the display *)

Lemma raw_token_type allowed restricted tracker code filename t :
  In t (fst (scan_under allowed restricted tracker code filename)) ->
  In (type t) (map fst (firstn 20 patterns)).
Proof.
  rewrite scan_tokens. intros Ht. apply in_map_iff in Ht.
  destruct Ht as [m [<- Hm]]. apply filter_In in Hm. destruct Hm as [Hm Hws].
  destruct (scanned_In _ _ _ _ (finditer_scanned code) Hm) as [_ Hmm].
  apply master_at_sound in Hmm. destruct Hmm as [r [Hr _]].
  change patterns with (firstn 20 patterns ++ [("WHITESPACE", WHITESPACE)])
    in Hr.
  apply in_app_iff in Hr. destruct Hr as [Hr|[Hr|[]]].
  - unfold token_of. cbn [type]. apply in_map_iff.
    exists (lastgroup m, r). split; [reflexivity | exact Hr].
  - injection Hr as Hname _. unfold is_whitespace in Hws.
    rewrite <- Hname in Hws. discriminate.
Qed.

(** X17. What the display shows as the type of a token that [tokenize]
    returns: a composite call keeps its raw type name FUNCTION_CALL, for
    which [type_map] has no entry; every other token gets a label of the
    table; the label Function is never shown, as no IDENTIFIER token holds a
    parenthesis. *)
Theorem display_type_of_tokens allowed restricted tracker code filename :
  Forall (fun t =>
            if (type t =? "FUNCTION_CALL")%string
            then format_token_type (type t) (value t) = "FUNCTION_CALL"
            else In (format_token_type (type t) (value t)) display_labels)
         (fst (tokenize_under allowed restricted tracker code filename)).
Proof.
  rewrite tokenize_under_eq. cbn [fst]. rewrite Forall_forall. intros x Hx.
  destruct (combine_In_origin _ _ Hx) as [Hin|[y [cs [_ [_ ->]]]]];
    [|reflexivity].
  pose proof (raw_token_type _ _ _ _ _ _ Hin) as Hty.
  destruct (String.eqb_spec (type x) "IDENTIFIER") as [Hid|Hnid].
  - rewrite Hid. cbn [String.eqb Ascii.eqb Bool.eqb].
    unfold format_token_type. cbn [lookup_mapper type_map String.eqb
                                   Ascii.eqb Bool.eqb].
    unfold identifier_label.
    rewrite (raw_identifier_no_paren _ _ _ _ _ _ Hin Hid).
    cbn [andb]. unfold display_labels. simpl. tauto.
  - cbn [firstn patterns map fst] in Hty. unfold patterns in Hty.
    cbn [firstn map fst] in Hty.
    repeat (destruct Hty as [Hty|Hty];
            [rewrite <- Hty in *; first [congruence
               | cbv; repeat (first [left; reflexivity | right])]|]).
    contradiction.
Qed.

(** ** Lexemes shown as they are *)

Lemma prefix_other_start a s c v :
  a <> c -> prefix (String a s) (String c v) = false.
Proof. intros H. cbn [prefix]. destruct (ascii_dec a c); [contradiction | reflexivity]. Qed.

(** A lexeme that starts with none of the four characters is shown as it
    is. *)
Lemma format_token_value_plain v c :
  get 0 v = Some c -> one_of reformat_starts c = false ->
  format_token_value v = v.
Proof.
  destruct v as [|c' v]; [discriminate|]. cbn [get]. intros [= ->] Hc.
  unfold reformat_starts in Hc. cbn [one_of] in Hc.
  repeat (apply orb_false_iff in Hc; destruct Hc as [? Hc]).
  assert (Hne : forall a, is_char a c = false -> a <> c).
  { intros a Ha ->. unfold is_char in Ha. rewrite Ascii.eqb_refl in Ha.
    discriminate. }
  unfold format_token_value, dquote_string, squote_string.
  rewrite !prefix_other_start by (apply Hne; assumption).
  reflexivity.
Qed.

Lemma get_append_first (a b : string) c :
  get 0 a = Some c -> get 0 (a ++ b)%string = Some c.
Proof. destruct a; [discriminate | exact (fun H => H)]. Qed.

Lemma match_first_char r code i e :
  In e (ends r code i) -> i < e ->
  exists c, get 0 (slice code i e) = Some c /\
            (first true r c || first false r c) = true.
Proof.
  intros He Hlt. destruct (ends_first _ _ _ _ He) as [[-> _]|[_ Hc]]; [lia|].
  destruct (char_at_get _ _ _ Hc) as [c [Hget Hf]].
  exists c. split.
  - rewrite <- Hget, <- (get_in_slice code i e i) by lia.
    rewrite Nat.sub_diag. reflexivity.
  - destruct (at_bol code i); rewrite Hf; [reflexivity | apply orb_true_r].
Qed.

Lemma starts_plain_verbatim r code i e :
  starts_plain r = true -> In e (ends r code i) -> i < e ->
  format_token_value (slice code i e) = slice code i e.
Proof.
  intros Hp He Hlt. destruct (match_first_char _ _ _ _ He Hlt) as [c [Hget Hf]].
  apply (format_token_value_plain _ c Hget).
  unfold starts_plain in Hp.
  pose proof (all_ascii_spec _ Hp c) as H. cbv beta in H.
  rewrite Hf in H. cbn [andb] in H. apply negb_true_iff in H. exact H.
Qed.

Lemma substring_zero s : forall n, substring n 0 s = EmptyString.
Proof. induction s as [|a s IH]; intros [|n]; simpl; auto. Qed.

Lemma substring_step s : forall i n a,
  get i s = Some a ->
  substring i (S n) s = String a (substring (S i) n s).
Proof.
  induction s as [|b s IH]; intros [|i] n a Hc; cbn [get] in Hc;
    try discriminate.
  - injection Hc as ->. reflexivity.
  - cbn [substring]. apply IH, Hc.
Qed.

(** The operators: a one-character lexeme of the class, or one of the
    two-character words. *)
Lemma ends_Lit w code : forall i e,
  In e (ends (Lit w) code i) -> slice code i e = w.
Proof.
  induction w as [|a w IH]; intros i e He; cbn [Lit ends] in He.
  - destruct He as [<-|[]]. unfold slice. rewrite Nat.sub_diag.
    apply substring_zero.
  - apply in_flat_map in He. destruct He as [j [Hj He]].
    unfold Chr in Hj. rewrite ends_Cls in Hj.
    destruct (char_at (is_char a) code i) eqn:E; [|contradiction].
    destruct Hj as [<-|[]]. pose proof (ends_bounds _ _ _ _ He) as [Hle _].
    apply IH in He. destruct (char_at_get _ _ _ E) as [c [Hc Hac]].
    apply Ascii.eqb_eq in Hac. subst c.
    rewrite <- He. unfold slice.
    replace (e - i) with (S (e - S i)) by lia.
    apply substring_step, Hc.
Qed.

Lemma ends_Words ws code i e :
  In e (ends (Words ws) code i) -> exists w, In w ws /\ slice code i e = w.
Proof.
  unfold Words. induction ws as [|w ws IH]; [intros []|].
  destruct ws as [|w' ws].
  - cbn [map Alts]. intros He. exists w. split; [left; reflexivity|].
    apply (ends_Lit _ _ _ _ He).
  - cbn [map Alts ends] in *. intros He. apply in_app_iff in He.
    destruct He as [He|He].
    + exists w. split; [left; reflexivity | apply (ends_Lit _ _ _ _ He)].
    + destruct (IH He) as [w0 [Hw0 E]]. exists w0. split; [right|]; assumption.
Qed.

Lemma class_lexeme p code i e :
  In e (ends (Cls p) code i) ->
  exists c, slice code i e = String c EmptyString /\ p c = true.
Proof.
  rewrite ends_Cls. destruct (char_at p code i) eqn:E; [|intros []].
  intros [<-|[]]. destruct (char_at_get _ _ _ E) as [c [Hc Hp]].
  exists c. split; [apply slice_one, Hc | exact Hp].
Qed.

Lemma operator_words_verbatim :
  forallb (fun w => (format_token_value w =? w)%string)
    ["++"; "--"; "->"; "::"; "<<"; ">>"; "<="; ">="; "=="; "!="; "&&";
     "||"; "+="; "-="; "*="; "/="; "%="] = true.
Proof. vm_compute. reflexivity. Qed.

Lemma operator_chars_verbatim :
  all_ascii (fun c =>
    implb (one_of "+-*/%=<>!&|~^" c)
          (format_token_value (String c EmptyString) =? String c EmptyString)%string)
  = true.
Proof. vm_compute. reflexivity. Qed.


Lemma combine_In_origin_lexeme tokens : forall x,
  In x (combine_function_calls tokens) ->
  In x tokens \/
  exists y ys,
    In y tokens /\ type y = "IDENTIFIER" /\ x = call_token y (value y :: ys).
Proof.
  funelim (combine_function_calls tokens); simp combine_function_calls;
    intros x Hx.
  - contradiction.
  - left. exact Hx.
  - destruct Hx as [<-|Hx].
    + right.
      destruct (collect_call_prefix rest 1 [value token; value next])
        as [ys Hys].
      exists token, (value next :: ys). split; [left; reflexivity|].
      split; [|rewrite Hys; reflexivity].
      unfold is_call_start in Heq. apply andb_true_iff in Heq.
      destruct Heq as [Heq _]. apply andb_true_iff in Heq.
      apply String.eqb_eq, Heq.
    + destruct (H x Hx) as [Hin|[y [ys [Hin Hy]]]].
      * left. right. right. eapply collect_call_rest_In, Hin.
      * right. exists y, ys. split; [|exact Hy].
        right. right. eapply collect_call_rest_In, Hin.
  - destruct Hx as [<-|Hx]; [left; left; reflexivity|].
    destruct (H x Hx) as [Hin|[y [ys [Hin Hy]]]].
    + left. right. exact Hin.
    + right. exists y, ys. split; [right; exact Hin | exact Hy].
Qed.

Lemma kept_match_pattern code m :
  In m (kept (finditer code)) ->
  exists r, In (lastgroup m, r) (firstn 20 patterns) /\
            In (m_end m) (ends r code (m_start m)) /\ m_start m < m_end m.
Proof.
  intros Hm. apply filter_In in Hm. destruct Hm as [Hm Hws].
  destruct (scanned_In _ _ _ _ (finditer_scanned code) Hm) as [_ Hmm].
  pose proof (master_at_span _ _ _ Hmm) as [_ [Hlt _]].
  apply master_at_sound in Hmm. destruct Hmm as [r [Hr [_ Hmatch]]].
  apply match_at_In in Hmatch.
  change patterns with (firstn 20 patterns ++ [("WHITESPACE", WHITESPACE)])
    in Hr.
  apply in_app_iff in Hr. destruct Hr as [Hr|[Hr|[]]].
  - exists r. auto.
  - injection Hr as Hname _. unfold is_whitespace in Hws.
    rewrite <- Hname in Hws. discriminate.
Qed.

Lemma raw_token_display allowed restricted tracker code filename t :
  In t (fst (scan_under allowed restricted tracker code filename)) ->
  In (type t) reformatted_types \/ format_token_value (value t) = value t.
Proof.
  rewrite scan_tokens. intros Ht. apply in_map_iff in Ht.
  destruct Ht as [m [<- Hm]].
  destruct (kept_match_pattern _ _ Hm) as [r [Hr [He Hlt]]].
  unfold token_of. cbn [type value].
  unfold patterns in Hr. cbn [firstn] in Hr.
  repeat (destruct Hr as [Hr|Hr];
    [injection Hr as Hn Hrr; rewrite <- Hn; subst r;
     first
       [ left; unfold reformatted_types; cbn [In];
         solve [repeat (first [left; reflexivity | right])]
       | right; refine (starts_plain_verbatim _ _ _ _ _ He Hlt);
         vm_compute; reflexivity
       | idtac ]
    |]); try contradiction.
  - (* OPERATOR_2CHAR *)
    right. unfold OPERATOR_2CHAR in He. apply ends_Words in He.
    destruct He as [w [Hw ->]].
    pose proof operator_words_verbatim as H. rewrite forallb_forall in H.
    apply String.eqb_eq, H, Hw.
  - (* OPERATOR_1CHAR *)
    right. unfold OPERATOR_1CHAR in He. apply class_lexeme in He.
    destruct He as [c [-> Hc]].
    pose proof (all_ascii_spec _ operator_chars_verbatim c) as H.
    cbv beta in H. rewrite Hc in H. apply String.eqb_eq, H.
Qed.

(** X18. What the display shows as the value of a token that [tokenize]
    returns: comments, include lines, directives, string and character
    literals are the only tokens it reformats; every other token, composite
    calls included, is shown exactly as its lexeme. *)
Theorem display_value_of_tokens allowed restricted tracker code filename :
  Forall (fun t => In (type t) reformatted_types \/
                   format_token_value (value t) = value t)
         (fst (tokenize_under allowed restricted tracker code filename)).
Proof.
  rewrite tokenize_under_eq. cbn [fst]. rewrite Forall_forall. intros x Hx.
  destruct (combine_In_origin_lexeme _ _ Hx) as [Hin|[y [ys [Hin [Hy ->]]]]].
  - eapply raw_token_display, Hin.
  - right. cbn [call_token value]. rewrite join_empty_cons.
    rewrite scan_tokens in Hin. apply in_map_iff in Hin.
    destruct Hin as [m [<- Hm]].
    destruct (kept_match_pattern _ _ Hm) as [r [Hr [He Hlt]]].
    unfold token_of in Hy |- *. cbn [type value] in *.
    assert (Hrr : r = IDENTIFIER).
    { apply patterns_IDENTIFIER. rewrite <- Hy.
      rewrite <- (firstn_skipn 20 patterns). apply in_or_app. left. exact Hr. }
    subst r. destruct (match_first_char _ _ _ _ He Hlt) as [c [Hget Hf]].
    apply (format_token_value_plain _ c); [apply get_append_first, Hget|].
    assert (Hp : starts_plain IDENTIFIER = true) by (vm_compute; reflexivity).
    unfold starts_plain in Hp. pose proof (all_ascii_spec _ Hp c) as H.
    cbv beta in H. rewrite Hf in H. cbn [andb] in H.
    apply negb_true_iff in H. exact H.
Qed.

(** * Further properties of the scanner *)

Lemma In_patterns_named name r :
  In (name, r) patterns -> pattern_named name patterns = Some r.
Proof.
  unfold patterns. simpl In.
  intros H. repeat (destruct H as [H|H]; [inversion H; reflexivity|]).
  contradiction.
Qed.

Lemma kept_match_named code m :
  In m (kept (finditer code)) ->
  exists r, pattern_named (lastgroup m) patterns = Some r /\
            In (m_end m) (ends r code (m_start m)) /\
            match_at r code (m_start m) = Some (m_end m) /\
            m_start m < m_end m <= String.length code.
Proof.
  intros Hm. apply filter_In in Hm. destruct Hm as [Hm _].
  destruct (scanned_In _ _ _ _ (finditer_scanned code) Hm) as [_ Hmm].
  pose proof (master_at_span _ _ _ Hmm) as [_ Hspan].
  apply master_at_sound in Hmm. destruct Hmm as [r [Hr [_ Hmatch]]].
  exists r. split; [apply In_patterns_named, Hr|].
  split; [apply match_at_In, Hmatch|]. split; assumption.
Qed.

Lemma ends_Seq r1 r2 code i e :
  In e (ends (Seq r1 r2) code i) ->
  exists j, In j (ends r1 code i) /\ In e (ends r2 code j).
Proof. cbn [ends]. intros H. apply in_flat_map in H. exact H. Qed.

Lemma ends_Bol code i e : In e (ends Bol code i) -> e = i /\ at_bol code i = true.
Proof.
  cbn [ends]. destruct (at_bol code i); [|intros []].
  intros [<-|[]]. auto.
Qed.

Lemma ends_Eol code i e : In e (ends Eol code i) -> e = i /\ at_eol code i = true.
Proof.
  cbn [ends]. destruct (at_eol code i); [|intros []].
  intros [<-|[]]. auto.
Qed.

Lemma ends_WordB code i e :
  In e (ends WordB code i) -> e = i /\ at_word_boundary code i = true.
Proof.
  cbn [ends]. destruct (at_word_boundary code i); [|intros []].
  intros [<-|[]]. auto.
Qed.

(** ** Directives *)

(** An offset at the start of a line is its own line start: the column
    there is 1. *)
Lemma line_start_at_bol code s :
  at_bol code s = true ->
  nth (line_number (line_starts code) s - 1) (line_starts code) 0 = s.
Proof.
  intros Hbol.
  assert (Hin : In s (line_starts code)).
  { destruct s as [|k]; [left; reflexivity|]. right.
    apply (newline_ends_complete code 0 k Hbol). }
  pose proof (line_start_le code s) as Hle.
  pose proof (advance_line_last (newline_ends 0 code) s [0]
                (line_starts_sorted code) ltac:(discriminate) s Hin
                ltac:(lia)) as Hge.
  unfold line_number, line_starts in *. cbn [skipn length app] in *. lia.
Qed.

(** X19. Directives are whole lines. A raw token of one of the three
    directive types starts at the start of a line, so its column is 1 (white
    space before the [#] is part of its lexeme); a PREPROCESSOR token runs
    to the end of its line: it stops at a newline or at the end of the text. *)
Theorem directive_tokens_are_lines allowed restricted tracker code filename t :
  In t (fst (scan_under allowed restricted tracker code filename)) ->
  In (type t) directive_types ->
  at_bol code (offset_of code t) = true /\ column t = 1 /\
  (type t = "PREPROCESSOR" ->
   at_eol code (offset_of code t + String.length (value t)) = true).
Proof.
  rewrite scan_tokens. intros Ht Hty.
  apply in_map_iff in Ht. destruct Ht as [m [<- Hm]].
  destruct (kept_match_named _ _ Hm) as [r [Hr [He [_ Hspan]]]].
  rewrite offset_of_token.
  assert (Hlen : String.length (value (token_of code filename m))
                 = m_end m - m_start m).
  { unfold token_of. cbn [value]. apply length_slice. lia. }
  rewrite Hlen. replace (m_start m + (m_end m - m_start m)) with (m_end m) by lia.
  unfold token_of in Hty |- *. cbn [type column] in *.
  assert (Hbol : at_bol code (m_start m) = true).
  { unfold directive_types in Hty. cbn [In] in Hty.
    destruct Hty as [Hn|[Hn|[Hn|[]]]]; rewrite <- Hn in Hr;
      cbn in Hr; injection Hr as <-;
      apply ends_Seq in He; destruct He as [j [Hj _]];
      apply ends_Bol in Hj; apply Hj. }
  split; [exact Hbol|]. split.
  - rewrite (line_start_at_bol _ _ Hbol). lia.
  - intros Hn. rewrite Hn in Hr. cbn in Hr. injection Hr as <-.
    unfold PREPROCESSOR in He. cbn [Seqs] in He.
    repeat (apply ends_Seq in He; let j := fresh "j" in
            destruct He as [j [_ He]]).
    apply ends_Eol in He. destruct He as [<- He]. exact He.
Qed.

Lemma directive_tokens_are_lines_witness :
  let code := ("  #define N 3" ++ newline_string ++ "int x;")%string in
  let t := mkToken "PREPROCESSOR" "  #define N 3" 1 1 "input.txt" in
  at_bol code (offset_of code t) = true /\ column t = 1 /\
  (type t = "PREPROCESSOR" ->
   at_eol code (offset_of code t + String.length (value t)) = true).
Proof.
  apply (directive_tokens_are_lines allowed_libs restricted_funcs []
           ("  #define N 3" ++ newline_string ++ "int x;")%string "input.txt"
           (mkToken "PREPROCESSOR" "  #define N 3" 1 1 "input.txt")).
  - vm_compute. left. reflexivity.
  - vm_compute. right. right. left. reflexivity.
Defined.

(** ** Identifiers and integers are taken whole *)

Lemma class_run_exists P code : forall m j,
  String.length code - j <= m ->
  exists n, (forall k, j <= k < j + n -> char_at P code k = true) /\
            char_at P code (j + n) = false.
Proof.
  induction m as [|m IH]; intros j Hm.
  - exists 0. split; [intros; lia|]. rewrite Nat.add_0_r.
    destruct (char_at P code j) eqn:E; [|reflexivity].
    apply char_at_lt in E. lia.
  - destruct (char_at P code j) eqn:E.
    + pose proof (char_at_lt _ _ _ E).
      destruct (IH (S j) ltac:(lia)) as [n [Hrun Hstop]].
      exists (S n). split.
      * intros k Hk. destruct (Nat.eq_dec k j) as [->|Hne]; [exact E|].
        apply Hrun. lia.
      * replace (j + S n) with (S j + n) by lia. exact Hstop.
    + exists 0. split; [intros; lia|]. rewrite Nat.add_0_r. exact E.
Qed.

(** A class followed by the greedy star of a class stops where the run of
    the second class stops. *)
Lemma class_then_star_stops p q code i e :
  match_at (Seq (Cls p) (Star (Cls q))) code i = Some e ->
  char_at p code i = true /\ char_at q code e = false.
Proof.
  unfold match_at.
  change (ends (Seq (Cls p) (Star (Cls q))) code i)
    with (flat_map (ends (Star (Cls q)) code) (ends (Cls p) code i)).
  rewrite ends_Cls. destruct (char_at p code i); [|discriminate].
  cbn [flat_map]. rewrite app_nil_r. intros He. split; [reflexivity|].
  destruct (class_run_exists q code (String.length code) (S i) ltac:(lia))
    as [n [Hrun Hstop]].
  rewrite (star_class_run q code n (S i) Hrun Hstop) in He.
  injection He as <-. exact Hstop.
Qed.

(** X20. Identifiers are taken whole: a raw IDENTIFIER token starts with a
    letter or an underscore, and the character after it, if there is one,
    is not a word character. *)
Theorem identifiers_taken_whole allowed restricted tracker code filename t :
  In t (fst (scan_under allowed restricted tracker code filename)) ->
  type t = "IDENTIFIER" ->
  char_at is_ident_start code (offset_of code t) = true /\
  char_at is_word code (offset_of code t + String.length (value t)) = false.
Proof.
  rewrite scan_tokens. intros Ht Hty.
  apply in_map_iff in Ht. destruct Ht as [m [<- Hm]].
  destruct (kept_match_named _ _ Hm) as [r [Hr [_ [Hmatch Hspan]]]].
  rewrite offset_of_token.
  assert (Hlen : String.length (value (token_of code filename m))
                 = m_end m - m_start m).
  { unfold token_of. cbn [value]. apply length_slice. lia. }
  rewrite Hlen. replace (m_start m + (m_end m - m_start m)) with (m_end m) by lia.
  unfold token_of in Hty. cbn [type] in Hty.
  rewrite Hty in Hr. cbn in Hr. injection Hr as <-.
  exact (class_then_star_stops _ _ _ _ _ Hmatch).
Qed.

Lemma identifiers_taken_whole_witness :
  let code := "iffy = do_it;" in
  let t := mkToken "IDENTIFIER" "iffy" 1 1 "input.txt" in
  char_at is_ident_start code (offset_of code t) = true /\
  char_at is_word code (offset_of code t + String.length (value t)) = false.
Proof.
  apply (identifiers_taken_whole allowed_libs restricted_funcs []
           "iffy = do_it;" "input.txt"
           (mkToken "IDENTIFIER" "iffy" 1 1 "input.txt")).
  - vm_compute. left. reflexivity.
  - reflexivity.
Defined.

(** ** Closed vocabularies *)

Lemma bounded_word ws code i e :
  In e (ends (Seqs [WordB; Words ws; WordB]) code i) ->
  In (slice code i e) ws /\
  at_word_boundary code i = true /\ at_word_boundary code e = true.
Proof.
  cbn [Seqs]. intros He.
  apply ends_Seq in He. destruct He as [j [Hj He]].
  apply ends_WordB in Hj. destruct Hj as [-> Hb1].
  apply ends_Seq in He. destruct He as [j [Hj He]].
  apply ends_WordB in He. destruct He as [-> Hb2].
  apply ends_Words in Hj. destruct Hj as [w [Hw ->]]. auto.
Qed.

(** X21. Reserved words are whole words of their list: the lexeme of a raw
    KEYWORD, TYPE, BOOLEAN or NULL token is one of the words of its pattern
    and has a word boundary on both sides, so it is never a part of a
    longer name. *)
Theorem reserved_words_are_whole_words allowed restricted tracker code filename t :
  In t (fst (scan_under allowed restricted tracker code filename)) ->
  In (type t) ["KEYWORD"; "TYPE"; "BOOLEAN"; "NULL"] ->
  In (value t) (reserved_words (type t)) /\
  at_word_boundary code (offset_of code t) = true /\
  at_word_boundary code (offset_of code t + String.length (value t)) = true.
Proof.
  rewrite scan_tokens. intros Ht Hty.
  apply in_map_iff in Ht. destruct Ht as [m [<- Hm]].
  destruct (kept_match_named _ _ Hm) as [r [Hr [He [_ Hspan]]]].
  rewrite offset_of_token.
  assert (Hlen : String.length (value (token_of code filename m))
                 = m_end m - m_start m).
  { unfold token_of. cbn [value]. apply length_slice. lia. }
  rewrite Hlen. replace (m_start m + (m_end m - m_start m)) with (m_end m) by lia.
  unfold token_of in Hty |- *. cbn [type value] in *.
  assert (Hk : pattern_named "KEYWORD" patterns = Some KEYWORD) by reflexivity.
  assert (Ht : pattern_named "TYPE" patterns = Some TYPE) by reflexivity.
  assert (Hb : pattern_named "BOOLEAN" patterns = Some BOOLEAN) by reflexivity.
  assert (Hz : pattern_named "NULL" patterns = Some NULL) by reflexivity.
  cbn [In] in Hty.
  destruct Hty as [Hn|[Hn|[Hn|[Hn|[]]]]]; rewrite <- Hn in Hr |- *.
  all: first [ rewrite Hk in Hr; injection Hr as <-; unfold KEYWORD in He
             | rewrite Ht in Hr; injection Hr as <-; unfold TYPE in He
             | rewrite Hb in Hr; injection Hr as <-; unfold BOOLEAN in He
             | rewrite Hz in Hr; injection Hr as <-; unfold NULL in He ].
  all: apply bounded_word in He; exact He.
Qed.

Lemma reserved_words_are_whole_words_witness :
  let code := "if (done) return nullptr;" in
  let t := mkToken "KEYWORD" "return" 1 11 "input.txt" in
  In (value t) (reserved_words (type t)) /\
  at_word_boundary code (offset_of code t) = true /\
  at_word_boundary code (offset_of code t + String.length (value t)) = true.
Proof.
  apply (reserved_words_are_whole_words allowed_libs restricted_funcs []
           "if (done) return nullptr;" "input.txt"
           (mkToken "KEYWORD" "return" 1 11 "input.txt")).
  - vm_compute. do 4 right. left. reflexivity.
  - left. reflexivity.
Defined.
